(** * Shuttle-dot attention stimulus: layout, phase, orbit, proximity and cue core

    A shallow embedding of [untitled.py], a PsychoPy script that draws a ring
    of targets, moves one white dot per opposite pair along an ellipse and
    beeps when the mouse-driven green dot comes close to a white dot.

    Numbers.  Python [int]s are [Z].  Python [float]s are idealised as the
    real numbers [R] of the Standard Library: [math.cos], [np.cos], [np.pi],
    [math.hypot] become [cos], [PI], [sqrt], and rounding is not modelled.
    Every statement below about a float quantity is therefore a statement
    about the exact real value the script's formula denotes.

    External collaborators (window, circles, mouse, keyboard, sound device,
    clock) are not modelled; what the script reads from them each frame is an
    explicit input record, and whether the beep object could be created is a
    boolean input of the setup. *)

From Stdlib Require Import Reals Lra Lia ZArith List Bool Permutation Sorted.
Import ListNotations.
Open Scope R_scope.

(** ** Python and numpy primitives used by the script *)

Module Py.

(** The exceptions the modelled statements can raise. *)
Inductive exc : Set := IndexError | ValueError | ZeroDivisionError.

Inductive result (A : Type) : Type :=
| Ok (a : A)
| Raise (e : exc).
Arguments Ok {A} a.
Arguments Raise {A} e.

Definition bind {A B : Type} (m : result A) (k : A -> result B) : result B :=
  match m with
  | Ok a => k a
  | Raise e => Raise e
  end.

(** A list comprehension whose body may raise: left to right, first
    exception wins. *)
Fixpoint comprehension {A B : Type} (f : A -> result B) (l : list A)
  : result (list B) :=
  match l with
  | [] => Ok []
  | x :: xs =>
      bind (f x) (fun y => bind (comprehension f xs) (fun ys => Ok (y :: ys)))
  end.

(** [len(l)] *)
Definition len {A : Type} (l : list A) : Z := Z.of_nat (length l).

(** [range(n)]: empty for [n <= 0]. *)
Definition range (n : Z) : list Z := map Z.of_nat (seq 0 (Z.to_nat n)).

(** [l[i]]: a negative index counts from the end; out of range raises. *)
Definition getitem {A : Type} (l : list A) (i : Z) : result A :=
  let k := if (i <? 0)%Z then (i + len l)%Z else i in
  if (k <? 0)%Z then Raise IndexError
  else match nth_error l (Z.to_nat k) with
       | Some x => Ok x
       | None => Raise IndexError
       end.

(** [l[:k]]: a negative stop counts from the end; the stop is clipped. *)
Definition slice_to {A : Type} (l : list A) (k : Z) : list A :=
  let k' := if (k <? 0)%Z then (k + len l)%Z else k in
  firstn (Z.to_nat k') l.

(** [x % y] on ints: floor remainder, raising on a zero divisor. *)
Definition int_mod (x y : Z) : result Z :=
  if (y =? 0)%Z then Raise ZeroDivisionError else Ok (x mod y)%Z.

(** [x / y] on floats, raising on a zero divisor. *)
Definition float_div (x y : R) : result R :=
  if Req_dec_T y 0 then Raise ZeroDivisionError else Ok (x / y).

(** [x % 1.0] on floats: the result has the sign of the divisor, so it is
    [x - floor x], in [[0, 1)]. *)
Definition mod1 (x : R) : R := x - IZR (Int_part x).

(** [math.hypot(x, y)] *)
Definition hypot (x y : R) : R := sqrt (x * x + y * y).

(** [np.linspace(start, stop, num, endpoint=False)]: [num] samples
    [start + k * step] with [step = (stop - start) / num]; a negative
    [num] raises [ValueError]. *)
Definition linspace_open (start stop : R) (num : Z) : result (list R) :=
  if (num <? 0)%Z then Raise ValueError
  else
    let step := (stop - start) / IZR num in
    Ok (map (fun k => IZR k * step + start) (range num)).

(** Comparisons of floats as booleans. *)
Definition ltb (x y : R) : bool := if Rlt_dec x y then true else false.
Definition geb (x y : R) : bool := if Rge_dec x y then true else false.

End Py.

Import Py.

Notation "x <- m ;; k" := (Py.bind m (fun x => k))
  (at level 61, m at next level, right associativity).

Definition point : Type := (R * R)%type.

(** ** Parameters (section "Parameters" of the script) *)

Record Config : Type := mkConfig {
  num_targets : Z;          (* number of targets (must be even) *)
  phase_spread : R;         (* 0.0 -> same phase; 1.0 -> spaced by 1/num_white_dots *)
  ring_radius : R;
  target_radius : R;
  white_dot_radius : R;
  green_radius : R;
  ellipse_b_scale : R;
  speed_uniform : R;
  overlap_thresh : R
}.

(** The values written in the script. *)
Definition script_config : Config := {|
  num_targets := 20;
  phase_spread := 1;
  ring_radius := 250;
  target_radius := 16;
  white_dot_radius := 8;
  green_radius := 10;
  ellipse_b_scale := 35 / 100;
  speed_uniform := 15 / 100;
  overlap_thresh := 36
|}.

Definition num_pairs (c : Config) : Z := (num_targets c / 2)%Z.
Definition num_white_dots (c : Config) : Z := (num_pairs c - 1)%Z.

(** ** Setup: targets, pairs, shuttle dots, phase offsets *)

Definition green_pair_index : Z := 0.

(** [[i for i in range(num_pairs) if i != green_pair_index]] *)
Definition available_pairs (c : Config) : list Z :=
  filter (fun i => negb (i =? green_pair_index)%Z) (range (num_pairs c)).

(** [available_pairs[:num_white_dots]] *)
Definition white_pair_indices (c : Config) : list Z :=
  slice_to (available_pairs c) (num_white_dots c).

(** Position of the target at angle [ang] on the ring. *)
Definition target_pos (c : Config) (ang : R) : point :=
  (ring_radius c * cos ang, ring_radius c * sin ang).

(** [0.0 if math.cos(theta) < 0 else 0.5] *)
Definition base_phase (theta : R) : R :=
  if Rlt_dec (cos theta) 0 then 0 else 1 / 2.

(** What the setup part of the script leaves behind for the main loop. *)
Record Setup : Type := mkSetup {
  angles : list R;
  targets : list point;
  white_shuttles : list R;       (* the theta of each (dot, theta) *)
  white_speeds : list R;
  base_phases : list R;
  phase_offsets : list R;
  ell_a : R;
  ell_b : R;
  green_pair_pos_a : point;
  green_pair_pos_b : point;
  thresh : R;
  beep : bool                    (* beep is not None *)
}.

(** [phase_offsets = [(base_phases[j] + j * gap) % 1.0 for j in range(nwd)]]
    with [nwd = max(1, len(white_shuttles))] and
    [gap = phase_spread * (1.0 / nwd)]. *)
Definition build_phase_offsets (spread : R) (shuttles bases : list R)
  : result (list R) :=
  let nwd := Z.max 1 (len shuttles) in
  q <- float_div 1 (IZR nwd) ;;
  let gap := spread * q in
  comprehension
    (fun j => bp <- getitem bases j ;; Ok (mod1 (bp + IZR j * gap)))
    (range nwd).

(** The script from "Build targets" to "Green dot and pair markers", in
    statement order.  [audio] tells whether the beep sound was created. *)
Definition setup (c : Config) (audio : bool) : result Setup :=
  angs <- linspace_open 0 (2 * PI) (num_targets c) ;;
  let tgts := map (target_pos c) angs in
  let a := ring_radius c in
  let b := a * ellipse_b_scale c in
  thetas <- comprehension (getitem angs) (white_pair_indices c) ;;
  let speeds := map (fun _ => speed_uniform c) thetas in
  let bases := map base_phase thetas in
  offs <- build_phase_offsets (phase_spread c) thetas bases ;;
  let idx_a := green_pair_index in
  idx_b <- int_mod (green_pair_index + num_pairs c) (num_targets c) ;;
  ang_a <- getitem angs idx_a ;;
  ang_b <- getitem angs idx_b ;;
  Ok {| angles := angs;
        targets := tgts;
        white_shuttles := thetas;
        white_speeds := speeds;
        base_phases := bases;
        phase_offsets := offs;
        ell_a := a;
        ell_b := b;
        green_pair_pos_a := target_pos c ang_a;
        green_pair_pos_b := target_pos c ang_b;
        thresh := overlap_thresh c;
        beep := audio |}.

(** ** Helpers *)

Definition ellipse_position (phase theta a b : R) : point :=
  let t := 2 * PI * phase in
  let ex := a * cos t in
  let ey := b * sin t in
  let c := cos theta in
  let s := sin theta in
  (ex * c - ey * s, ex * s + ey * c).

Definition distance (p1 p2 : point) : R :=
  hypot (fst p1 - fst p2) (snd p1 - snd p2).

(** ** Main loop *)

(** Phase of a dot at clock time [t]:
    [(t * white_speeds[i] + phase_offsets[i]) % 1.0]. *)
Definition dot_phase (t speed offset : R) : R := mod1 (t * speed + offset).

(** Position of a dot at clock time [t]. *)
Definition dot_position (t speed offset theta a b : R) : point :=
  ellipse_position (dot_phase t speed offset) theta a b.

(** [any(distance(dot.pos, green_dot.pos) < overlap_thresh for dot, _ in white_shuttles)] *)
Definition overlap_any (dots : list point) (green : point) (th : R) : bool :=
  existsb (fun p => ltb (distance p green) th) dots.

(** Debounce interval of the beep, in seconds. *)
Definition beep_interval : R := 22 / 100.

(** Initial value of [last_beep_time]: no beep yet. *)
Definition never : R := -1.

(** The cue decision of one frame:
    [if beep is not None and overlap and (now - last_beep_time >= 0.22)];
    returns whether [beep.play()] is called and the new [last_beep_time]. *)
Definition cue_trigger (bp overlap : bool) (now last : R) : bool * R :=
  if bp && overlap && geb (now - last) beep_interval
  then (true, now)
  else (false, last).

(** What one iteration reads from its collaborators. *)
Record Frame : Type := mkFrame {
  escape : bool;        (* event.getKeys(keyList=["escape", "esc"]) is non-empty *)
  clock_t : R;          (* t = clock.getTime() *)
  mpos : point;         (* mouse.getPos() *)
  clock_now : R         (* now = clock.getTime() *)
}.

(** What one completed iteration did. *)
Record FrameOut : Type := mkFrameOut {
  fo_dots : list point; (* dot.pos of every white dot *)
  fo_green : point;     (* green_dot.pos *)
  fo_overlap : bool;
  fo_now : R;
  fo_cue : bool         (* beep.play() was called *)
}.

(** The white-dot loop of one frame: [enumerate(white_shuttles)]. *)
Definition move_dots (su : Setup) (t : R) : result (list point) :=
  comprehension
    (fun it : Z * R =>
       let (i, theta) := it in
       speed <- getitem (white_speeds su) i ;;
       off <- getitem (phase_offsets su) i ;;
       Ok (dot_position t speed off theta (ell_a su) (ell_b su)))
    (combine (range (len (white_shuttles su))) (white_shuttles su)).

(** One iteration of the loop body after the escape test. *)
Definition frame_step (su : Setup) (last : R) (f : Frame)
  : result (FrameOut * R) :=
  dots <- move_dots su (clock_t f) ;;
  let overlap := overlap_any dots (mpos f) (thresh su) in
  let (cue, last') := cue_trigger (beep su) overlap (clock_now f) last in
  Ok ({| fo_dots := dots;
         fo_green := mpos f;
         fo_overlap := overlap;
         fo_now := clock_now f;
         fo_cue := cue |}, last').

(** The [while running] loop over the frames the collaborators deliver.
    The result is the record of the completed iterations; the loop ends at
    the first escape key, and an exception ends it as well (no cue is
    issued by the aborted iteration, since the dots are moved first). *)
Fixpoint main_loop (su : Setup) (last : R) (frames : list Frame)
  : list FrameOut :=
  match frames with
  | [] => []
  | f :: fs =>
      if escape f then []
      else match frame_step su last f with
           | Ok (out, last') => out :: main_loop su last' fs
           | Raise _ => []
           end
  end.

(** The whole script: setup, then the loop from [last_beep_time = -1.0]. *)
Definition script (c : Config) (audio : bool) (frames : list Frame)
  : result (list FrameOut) :=
  su <- setup c audio ;;
  Ok (main_loop su never frames).

(** Clock times at which [beep.play()] was called. *)
Definition cue_times (tr : list FrameOut) : list R :=
  map fo_now (filter fo_cue tr).

(** ** Notions used in the statements *)

(** A record of completed iterations obeys the cue rule from [last]: every
    iteration's [fo_cue] is the decision of [cue_trigger] on that iteration's
    overlap and clock reading, and [last_beep_time] is threaded through. *)
Fixpoint cue_consistent (bp : bool) (last : R) (tr : list FrameOut) : Prop :=
  match tr with
  | [] => True
  | o :: tr' =>
      fo_cue o = fst (cue_trigger bp (fo_overlap o) (fo_now o) last)
      /\ cue_consistent bp (snd (cue_trigger bp (fo_overlap o) (fo_now o) last)) tr'
  end.

(** Default iteration record for [nth]. *)
Definition no_frame : FrameOut :=
  {| fo_dots := []; fo_green := (0, 0); fo_overlap := false;
     fo_now := 0; fo_cue := false |}.

(** [angles[k]] as [np.linspace] computes it. *)
Definition angle_at (c : Config) (k : Z) : R :=
  IZR k * ((2 * PI - 0) / IZR (num_targets c)) + 0.

(** Phase offset of shuttle [j] as the comprehension computes it, [m] being
    [nwd]. *)
Definition offset_at (c : Config) (m j : Z) : R :=
  mod1 (base_phase (angle_at c (j + 1))
        + IZR j * (phase_spread c * (1 / IZR m))).

(** Closed form of the value [setup] returns when it returns. *)
Definition setup_value (c : Config) (audio : bool) : Setup :=
  let m := num_white_dots c in
  let thetas := map (fun j => angle_at c (j + 1)) (range m) in
  {| angles := map (angle_at c) (range (num_targets c));
     targets := map (target_pos c) (map (angle_at c) (range (num_targets c)));
     white_shuttles := thetas;
     white_speeds := map (fun _ => speed_uniform c) thetas;
     base_phases := map base_phase thetas;
     phase_offsets := map (offset_at c m) (range m);
     ell_a := ring_radius c;
     ell_b := ring_radius c * ellipse_b_scale c;
     green_pair_pos_a := target_pos c (angle_at c 0);
     green_pair_pos_b :=
       target_pos c (angle_at c ((green_pair_index + num_pairs c) mod num_targets c));
     thresh := overlap_thresh c;
     beep := audio |}.

(** Frame [k] of a run sampled every [d] seconds in which the mouse sits on
    the first white dot of the script's own setup. *)
Definition riding_frame (d : R) (k : nat) : Frame :=
  {| escape := false;
     clock_t := INR k * d;
     mpos := dot_position (INR k * d) (speed_uniform script_config)
               (offset_at script_config 9 0) (angle_at script_config 1)
               (ring_radius script_config)
               (ring_radius script_config * ellipse_b_scale script_config);
     clock_now := INR k * d |}.

Definition riding_frames (d : R) (n : nat) : list Frame :=
  map (riding_frame d) (seq 0 n).

Definition with_targets (n : Z) (c : Config) : Config :=
  {| num_targets := n;
     phase_spread := phase_spread c;
     ring_radius := ring_radius c;
     target_radius := target_radius c;
     white_dot_radius := white_dot_radius c;
     green_radius := green_radius c;
     ellipse_b_scale := ellipse_b_scale c;
     speed_uniform := speed_uniform c;
     overlap_thresh := overlap_thresh c |}.

Definition with_spread (s : R) (c : Config) : Config :=
  {| num_targets := num_targets c;
     phase_spread := s;
     ring_radius := ring_radius c;
     target_radius := target_radius c;
     white_dot_radius := white_dot_radius c;
     green_radius := green_radius c;
     ellipse_b_scale := ellipse_b_scale c;
     speed_uniform := speed_uniform c;
     overlap_thresh := overlap_thresh c |}.

Definition with_ring_radius (r : R) (c : Config) : Config :=
  {| num_targets := num_targets c;
     phase_spread := phase_spread c;
     ring_radius := r;
     target_radius := target_radius c;
     white_dot_radius := white_dot_radius c;
     green_radius := green_radius c;
     ellipse_b_scale := ellipse_b_scale c;
     speed_uniform := speed_uniform c;
     overlap_thresh := overlap_thresh c |}.

(** A configuration error in the sense of the specification: an odd target
    count, a spread outside [[0, 1]], or a non-positive radius. *)
Definition config_error (c : Config) : Prop :=
  Z.odd (num_targets c) = true
  \/ ~ (0 <= phase_spread c <= 1)
  \/ ring_radius c <= 0
  \/ target_radius c <= 0
  \/ white_dot_radius c <= 0
  \/ green_radius c <= 0.


(** A frame with the mouse far outside the ring. *)
Definition far_frame (t : R) : Frame :=
  {| escape := false; clock_t := t; mpos := (1000, 0); clock_now := t |}.

(** A frame on which the escape key is read. *)
Definition escape_frame (t : R) : Frame :=
  {| escape := true; clock_t := t; mpos := (0, 0); clock_now := t |}.

(** ** Facts about the Python primitives *)

Section PyFacts.

Lemma mod1_range (x : R) : 0 <= mod1 x < 1.
Proof.
  unfold mod1. fold (frac_part x).
  destruct (base_fp x) as [Hlo Hhi]. lra.
Qed.

Lemma mod1_small (x : R) : 0 <= x < 1 -> mod1 x = x.
Proof.
  intros [Hlo Hhi]. unfold mod1.
  assert (E : 0%Z = Int_part x) by (apply Int_part_spec; simpl; lra).
  rewrite <- E. simpl. lra.
Qed.

Lemma mod1_add_int (x : R) (k : Z) : mod1 (x + IZR k) = mod1 x.
Proof.
  unfold mod1.
  assert (E : (Int_part x + k)%Z = Int_part (x + IZR k)).
  { apply Int_part_spec. rewrite plus_IZR.
    destruct (base_Int_part x) as [H1 H2]. lra. }
  rewrite <- E, plus_IZR. lra.
Qed.

Lemma mod1_add_1 (x : R) : mod1 (x + 1) = mod1 x.
Proof. exact (mod1_add_int x 1). Qed.

Lemma ltb_true_iff (x y : R) : ltb x y = true <-> x < y.
Proof. unfold ltb. destruct (Rlt_dec x y); split; intros; auto; discriminate. Qed.

Lemma geb_true_iff (x y : R) : geb x y = true <-> x >= y.
Proof. unfold geb. destruct (Rge_dec x y); split; intros; auto; discriminate. Qed.

Lemma hypot_0 : hypot 0 0 = 0.
Proof. unfold hypot. replace (0 * 0 + 0 * 0) with 0 by lra. apply sqrt_0. Qed.

Lemma distance_refl (p : point) : distance p p = 0.
Proof.
  unfold distance. rewrite !Rminus_diag. apply hypot_0.
Qed.

Lemma length_range (n : Z) : length (range n) = Z.to_nat n.
Proof. unfold range. now rewrite length_map, length_seq. Qed.

Lemma in_range (n i : Z) : In i (range n) <-> (0 <= i < n)%Z.
Proof.
  unfold range. rewrite in_map_iff. split.
  - intros [k [<- Hk]]. apply in_seq in Hk. lia.
  - intros H. exists (Z.to_nat i). split; [lia|]. apply in_seq. lia.
Qed.

Lemma nth_error_range (n : Z) (k : nat) :
  (k < Z.to_nat n)%nat -> nth_error (range n) k = Some (Z.of_nat k).
Proof.
  intros H. unfold range. rewrite nth_error_map.
  rewrite nth_error_seq.
  apply Nat.ltb_lt in H. rewrite H. reflexivity.
Qed.

Lemma getitem_map_range {A : Type} (f : Z -> A) (n i : Z) :
  (0 <= i < n)%Z -> getitem (map f (range n)) i = Ok (f i).
Proof.
  intros H. unfold getitem.
  replace (i <? 0)%Z with false by (symmetry; apply Z.ltb_ge; lia).
  replace (i <? 0)%Z with false by (symmetry; apply Z.ltb_ge; lia).
  rewrite nth_error_map, nth_error_range by lia.
  simpl. now rewrite Z2Nat.id by lia.
Qed.

Lemma comprehension_ok {A B : Type} (f : A -> result B) (g : A -> B) (l : list A) :
  (forall x, In x l -> f x = Ok (g x)) -> comprehension f l = Ok (map g l).
Proof.
  induction l as [|x xs IH]; intros H; simpl; [reflexivity|].
  rewrite (H x) by (left; reflexivity). simpl.
  rewrite IH by (intros y Hy; apply H; right; exact Hy).
  reflexivity.
Qed.

End PyFacts.

(** ** The cue decision along a run of the loop *)

Section CueFacts.

Lemma beep_interval_pos : 0 < beep_interval.
Proof. unfold beep_interval. lra. Qed.

Lemma cue_trigger_fires (bp overlap : bool) (now last : R) :
  fst (cue_trigger bp overlap now last) = true <->
  bp = true /\ overlap = true /\ now - last >= beep_interval.
Proof.
  unfold cue_trigger.
  destruct bp, overlap; simpl;
    try (split; [discriminate | intros (? & ? & ?); discriminate]).
  destruct (geb (now - last) beep_interval) eqn:E; simpl.
  - apply geb_true_iff in E. tauto.
  - split; [discriminate|]. intros (_ & _ & H).
    apply geb_true_iff in H. congruence.
Qed.

Lemma cue_trigger_last (bp overlap : bool) (now last : R) :
  snd (cue_trigger bp overlap now last) =
  if fst (cue_trigger bp overlap now last) then now else last.
Proof.
  unfold cue_trigger.
  destruct (bp && overlap && geb (now - last) beep_interval); reflexivity.
Qed.

Lemma main_loop_cue_consistent (su : Setup) (frames : list Frame) :
  forall last, cue_consistent (beep su) last (main_loop su last frames).
Proof.
  induction frames as [|f fs IH]; intros last; simpl; [exact I|].
  destruct (escape f); [exact I|].
  unfold frame_step.
  destruct (move_dots su (clock_t f)) as [dots|e]; simpl; [|exact I].
  destruct (cue_trigger (beep su) (overlap_any dots (mpos f) (thresh su))
              (clock_now f) last) as [cue last'] eqn:E.
  simpl. rewrite E. simpl. split; [reflexivity | apply IH].
Qed.

(** Along a consistent record, every cue is at least one interval after
    [last], and cues are pairwise at least one interval apart. *)
Lemma cue_consistent_spacing (bp : bool) (tr : list FrameOut) :
  forall last,
    cue_consistent bp last tr ->
    Forall (fun x => x - last >= beep_interval) (cue_times tr)
    /\ ForallOrdPairs (fun x y => y - x >= beep_interval) (cue_times tr).
Proof.
  pose proof beep_interval_pos as Hpos.
  induction tr as [|o tr' IH]; intros last; simpl.
  - intros _. split; constructor.
  - intros [Hc Hrest].
    rewrite cue_trigger_last in Hrest.
    unfold cue_times in *. simpl.
    destruct (fo_cue o) eqn:Ecue.
    + symmetry in Hc. rewrite Hc in Hrest.
      apply cue_trigger_fires in Hc. destruct Hc as (_ & _ & Hge).
      destruct (IH _ Hrest) as [Hall Hpairs]. simpl. split.
      * constructor; [exact Hge|].
        eapply Forall_impl; [|exact Hall]. simpl. intros x Hx. lra.
      * constructor; assumption.
    + rewrite <- Hc in Hrest. exact (IH _ Hrest).
Qed.

Lemma cue_consistent_overlap (bp : bool) (tr : list FrameOut) :
  forall last,
    cue_consistent bp last tr ->
    forall o, In o tr -> fo_cue o = true -> fo_overlap o = true.
Proof.
  induction tr as [|o tr' IH]; intros last; simpl; [tauto|].
  intros [Hc Hrest] o' [<- | Hin] Hcue.
  - rewrite Hc in Hcue. apply cue_trigger_fires in Hcue. tauto.
  - eapply IH; eassumption.
Qed.

(** Frames every [d] seconds with [m * d] the debounce interval, overlap
    true throughout, the last cue [j] frames back: a cue is issued exactly
    when the count of frames since the last cue reaches [m]. *)
Lemma cue_consistent_steady (m : nat) (d : R) (tr : list FrameOut) :
  0 < d -> INR m * d = beep_interval ->
  forall (k0 j : nat) (last : R),
    (1 <= j <= m)%nat ->
    last = INR k0 * d - INR j * d ->
    cue_consistent true last tr ->
    (forall i, (i < length tr)%nat ->
               fo_overlap (nth i tr no_frame) = true
               /\ fo_now (nth i tr no_frame) = INR (k0 + i) * d) ->
    forall i, (i < length tr)%nat ->
              (fo_cue (nth i tr no_frame) = true <-> ((i + j) mod m = 0)%nat).
Proof.
  intros Hd Hm.
  induction tr as [|o tr' IH]; intros k0 j last Hj Hlast Hc Hfr i Hi;
    simpl in Hi; [lia|].
  simpl in Hc. destruct Hc as [Hc Hrest].
  destruct (Hfr 0%nat) as [Hov Hnow]; [simpl; lia|]. simpl in Hov, Hnow.
  rewrite Nat.add_0_r in Hnow.
  assert (Hfire : fo_cue o = true <-> j = m).
  { rewrite Hc, cue_trigger_fires, Hov, Hnow, Hlast.
    replace (INR k0 * d - (INR k0 * d - INR j * d)) with (INR j * d) by lra.
    rewrite <- Hm. split.
    - intros (_ & _ & Hge).
      assert (INR m <= INR j) by nra.
      apply INR_le in H. lia.
    - intros ->. repeat split; lra. }
  assert (Htail : forall i', (i' < length tr')%nat ->
            fo_overlap (nth i' tr' no_frame) = true
            /\ fo_now (nth i' tr' no_frame) = INR (S k0 + i') * d).
  { intros i' Hi'. destruct (Hfr (S i')) as [H1 H2]; [simpl; lia|].
    simpl in H1, H2. split; [exact H1|].
    rewrite H2. f_equal. f_equal. lia. }
  rewrite cue_trigger_last, <- Hc in Hrest.
  destruct i as [|i'].
  - simpl. rewrite Hfire. split.
    + intros ->. apply Nat.Div0.mod_same.
    + intros Hmod. destruct (Nat.eq_dec j m) as [|Hne]; [assumption|].
      rewrite Nat.mod_small in Hmod by lia. lia.
  - simpl. destruct (Nat.eq_dec j m) as [->|Hne].
    + assert (E : fo_cue o = true) by (apply Hfire; reflexivity).
      rewrite E in Hrest.
      rewrite (IH (S k0) 1%nat (INR k0 * d + 0 * d)); try assumption; try lia.
      * replace (S (i' + m)) with (S i' + 1 * m)%nat by lia.
        rewrite Nat.Div0.mod_add.
        replace (i' + 1)%nat with (S i') by lia. reflexivity.
      * rewrite S_INR. simpl. lra.
      * replace (INR k0 * d + 0 * d) with (fo_now o) by (rewrite Hnow; lra).
        exact Hrest.
    + assert (E : fo_cue o = false).
      { destruct (fo_cue o); [|reflexivity]. exfalso. apply Hne, Hfire. reflexivity. }
      rewrite E in Hrest.
      rewrite (IH (S k0) (S j) last); try assumption; try lia.
      * replace (i' + S j)%nat with (S (i' + j)) by lia. reflexivity.
      * rewrite Hlast, !S_INR. lra.
Qed.

End CueFacts.

(** ** Orbit, proximity *)

Section OrbitFacts.

Lemma getitem_in {A : Type} (l : list A) (i : Z) (x : A) :
  getitem l i = Ok x -> In x l.
Proof.
  unfold getitem.
  destruct ((if (i <? 0)%Z then (i + len l)%Z else i) <? 0)%Z; [discriminate|].
  destruct (nth_error l _) as [y|] eqn:E; [|discriminate].
  intros H. injection H as <-. eapply nth_error_In; eassumption.
Qed.

Lemma comprehension_ext {A B : Type} (f g : A -> result B) (l : list A) :
  (forall x, In x l -> f x = g x) -> comprehension f l = comprehension g l.
Proof.
  induction l as [|x xs IH]; intros H; simpl; [reflexivity|].
  rewrite (H x) by (left; reflexivity).
  rewrite IH by (intros y Hy; apply H; right; exact Hy).
  reflexivity.
Qed.

Lemma dot_phase_periodic (t s o : R) :
  0 < s -> dot_phase (t + 1 / s) s o = dot_phase t s o.
Proof.
  intros Hs. unfold dot_phase.
  replace ((t + 1 / s) * s + o) with (t * s + o + 1) by (field; lra).
  apply mod1_add_1.
Qed.

Lemma ellipse_position_phase_0 (theta a b : R) :
  ellipse_position 0 theta a b = (a * cos theta, a * sin theta).
Proof.
  unfold ellipse_position. rewrite Rmult_0_r, cos_0, sin_0.
  f_equal; ring.
Qed.

Lemma ellipse_position_phase_half (theta a b : R) :
  ellipse_position (1 / 2) theta a b = (- a * cos theta, - a * sin theta).
Proof.
  unfold ellipse_position.
  replace (2 * PI * (1 / 2)) with PI by lra.
  rewrite cos_PI, sin_PI. f_equal; ring.
Qed.

Lemma ellipse_position_phase_quarter (theta a b : R) :
  ellipse_position (1 / 4) theta a b = (- b * sin theta, b * cos theta).
Proof.
  unfold ellipse_position.
  replace (2 * PI * (1 / 4)) with (PI / 2) by lra.
  rewrite cos_PI2, sin_PI2. f_equal; ring.
Qed.

Lemma overlap_any_true_iff (dots : list point) (green : point) (th : R) :
  overlap_any dots green th = true <->
  exists p, In p dots /\ distance p green < th.
Proof.
  unfold overlap_any. rewrite existsb_exists.
  split; intros [p [Hin H]]; exists p; (split; [exact Hin|]);
    apply ltb_true_iff; exact H.
Qed.

Lemma frame_step_dots (su : Setup) (last : R) (f : Frame) (o : FrameOut) (last' : R) :
  frame_step su last f = Ok (o, last') ->
  move_dots su (clock_t f) = Ok (fo_dots o)
  /\ fo_green o = mpos f
  /\ fo_overlap o = overlap_any (fo_dots o) (fo_green o) (thresh su).
Proof.
  unfold frame_step.
  destruct (move_dots su (clock_t f)) as [dots|e]; simpl; [|discriminate].
  destruct (cue_trigger _ _ _ _) as [cue l'].
  intros H. injection H as <- _. simpl. auto.
Qed.

Lemma main_loop_frames (su : Setup) (frames : list Frame) :
  forall last o,
    In o (main_loop su last frames) ->
    exists f l l', In f frames /\ frame_step su l f = Ok (o, l').
Proof.
  induction frames as [|f fs IH]; intros last o; simpl; [tauto|].
  destruct (escape f); [simpl; tauto|].
  destruct (frame_step su last f) as [[out last']|e] eqn:E; [|simpl; tauto].
  intros [<- | Hin].
  - exists f, last, last'. auto.
  - destruct (IH _ _ Hin) as (f' & l & l' & Hf & Hs).
    exists f', l, l'. auto.
Qed.

End OrbitFacts.

(** ** What the setup computes *)

Section SetupFacts.

Lemma filter_id {A : Type} (f : A -> bool) (l : list A) :
  (forall x, In x l -> f x = true) -> filter f l = l.
Proof.
  induction l as [|x xs IH]; intros H; simpl; [reflexivity|].
  rewrite (H x) by (left; reflexivity).
  rewrite IH by (intros y Hy; apply H; right; exact Hy).
  reflexivity.
Qed.

Lemma available_pairs_eq (c : Config) :
  available_pairs c = map (fun j => (j + 1)%Z) (range (num_pairs c - 1)).
Proof.
  unfold available_pairs, range, green_pair_index.
  destruct (Z.to_nat (num_pairs c)) as [|n] eqn:E.
  - replace (Z.to_nat (num_pairs c - 1)) with 0%nat by lia. reflexivity.
  - replace (Z.to_nat (num_pairs c - 1)) with n by lia.
    simpl. rewrite <- seq_shift.
    rewrite filter_id.
    + rewrite !map_map. apply map_ext. intros k. lia.
    + intros x Hx. apply in_map_iff in Hx. destruct Hx as [k [<- Hk]].
      apply in_map_iff in Hk. destruct Hk as [k' [<- _]].
      apply negb_true_iff, Z.eqb_neq. lia.
Qed.

Lemma white_pair_indices_eq (c : Config) :
  white_pair_indices c = map (fun j => (j + 1)%Z) (range (num_white_dots c)).
Proof.
  unfold white_pair_indices, slice_to, num_white_dots.
  rewrite available_pairs_eq.
  apply firstn_all2.
  rewrite length_map, length_range. unfold len.
  rewrite length_map, length_range.
  destruct (num_pairs c - 1 <? 0)%Z eqn:E.
  - apply Z.ltb_lt in E. lia.
  - lia.
Qed.

Lemma build_phase_offsets_ok (spread : R) (m : Z) (th : Z -> R) :
  (1 <= m)%Z ->
  build_phase_offsets spread (map th (range m)) (map base_phase (map th (range m)))
  = Ok (map (fun j => mod1 (base_phase (th j) + IZR j * (spread * (1 / IZR m))))
          (range m)).
Proof.
  intros Hm. unfold build_phase_offsets, len.
  rewrite length_map, length_range.
  replace (Z.max 1 (Z.of_nat (Z.to_nat m))) with m by lia.
  unfold float_div.
  destruct (Req_dec_T (IZR m) 0) as [E|_].
  - apply eq_IZR_R0 in E. lia.
  - simpl. apply comprehension_ok.
    intros j Hj. apply in_range in Hj.
    rewrite map_map, getitem_map_range by exact Hj. reflexivity.
Qed.

(** With no shuttle dot, [range(nwd)] is [range(1)] and [base_phases[0]]
    is read from an empty list. *)
Lemma build_phase_offsets_empty (spread : R) :
  build_phase_offsets spread [] [] = Raise IndexError.
Proof.
  unfold build_phase_offsets, float_div.
  change (Z.max 1 (len (@nil R))) with 1%Z.
  destruct (Req_dec_T 1 0) as [E|_]; [lra|]. reflexivity.
Qed.

Lemma setup_thetas (c : Config) :
  (0 <= num_targets c)%Z ->
  comprehension (getitem (map (angle_at c) (range (num_targets c))))
    (white_pair_indices c)
  = Ok (map (fun j => angle_at c (j + 1)) (range (num_white_dots c))).
Proof.
  intros HN. rewrite white_pair_indices_eq.
  rewrite (comprehension_ok _ (angle_at c)).
  - now rewrite map_map.
  - intros i Hi. apply in_map_iff in Hi. destruct Hi as [j [<- Hj]].
    apply in_range in Hj. apply getitem_map_range.
    unfold num_white_dots, num_pairs in Hj.
    pose proof (Z.div_le_upper_bound (num_targets c) 2 (num_targets c)).
    lia.
Qed.

Lemma linspace_angles (c : Config) :
  (0 <= num_targets c)%Z ->
  linspace_open 0 (2 * PI) (num_targets c)
  = Ok (map (angle_at c) (range (num_targets c))).
Proof.
  intros HN. unfold linspace_open.
  replace (num_targets c <? 0)%Z with false by (symmetry; apply Z.ltb_ge; lia).
  reflexivity.
Qed.

(** From four targets on, the setup returns, whatever the parity of the
    count and whatever the other parameters. *)
Lemma setup_ok (c : Config) (audio : bool) :
  (4 <= num_targets c)%Z -> setup c audio = Ok (setup_value c audio).
Proof.
  intros HN. unfold setup.
  rewrite linspace_angles by lia. simpl.
  rewrite setup_thetas by lia. simpl.
  assert (HM : (1 <= num_white_dots c)%Z).
  { unfold num_white_dots, num_pairs.
    pose proof (Z.div_le_lower_bound (num_targets c) 2 2). lia. }
  rewrite (build_phase_offsets_ok _ _ (fun j => angle_at c (j + 1))) by exact HM.
  simpl. unfold int_mod.
  replace (num_targets c =? 0)%Z with false by (symmetry; apply Z.eqb_neq; lia).
  simpl. unfold green_pair_index at 1.
  rewrite getitem_map_range by lia. simpl.
  rewrite getitem_map_range by (apply Z.mod_pos_bound; lia). simpl.
  reflexivity.
Qed.

(** With two or three targets there is one pair and no shuttle dot, and the
    setup stops at the phase offsets. *)
Lemma setup_one_pair (c : Config) (audio : bool) :
  (2 <= num_targets c <= 3)%Z -> setup c audio = Raise IndexError.
Proof.
  intros HN. unfold setup.
  rewrite linspace_angles by lia. simpl.
  rewrite setup_thetas by lia. simpl.
  assert (HM : num_white_dots c = 0%Z).
  { unfold num_white_dots, num_pairs.
    assert (num_targets c = 2 \/ num_targets c = 3)%Z as [-> | ->] by lia;
      reflexivity. }
  rewrite HM. simpl. rewrite build_phase_offsets_empty. reflexivity.
Qed.

End SetupFacts.

(** ** The loop on a completed setup *)

Section LoopFacts.

Lemma combine_map_self {A B : Type} (f : A -> B) (l : list A) :
  combine l (map f l) = map (fun x => (x, f x)) l.
Proof. induction l as [|x xs IH]; simpl; [reflexivity | now rewrite IH]. Qed.

(** Position of shuttle [j] of configuration [c] at clock time [t]. *)
Lemma move_dots_setup (c : Config) (audio : bool) (t : R) :
  move_dots (setup_value c audio) t
  = Ok (map (fun j => dot_position t (speed_uniform c)
                        (offset_at c (num_white_dots c) j)
                        (angle_at c (j + 1))
                        (ring_radius c) (ring_radius c * ellipse_b_scale c))
          (range (num_white_dots c))).
Proof.
  unfold move_dots. simpl. unfold len.
  rewrite length_map, length_range.
  assert (E : range (Z.of_nat (Z.to_nat (num_white_dots c))) = range (num_white_dots c)).
  { unfold range. f_equal. f_equal. lia. }
  rewrite E, combine_map_self.
  rewrite (comprehension_ok _
    (fun it : Z * R => dot_position t (speed_uniform c)
                         (offset_at c (num_white_dots c) (fst it)) (snd it)
                         (ring_radius c) (ring_radius c * ellipse_b_scale c))).
  - rewrite map_map. reflexivity.
  - intros [i th] Hin. apply in_map_iff in Hin.
    destruct Hin as [j [Hj Hr]]. injection Hj as -> <-.
    apply in_range in Hr.
    rewrite map_map, !getitem_map_range by exact Hr. reflexivity.
Qed.

Lemma frame_step_ok (su : Setup) (last : R) (f : Frame) (dots : list point) :
  move_dots su (clock_t f) = Ok dots ->
  frame_step su last f
  = Ok ({| fo_dots := dots;
           fo_green := mpos f;
           fo_overlap := overlap_any dots (mpos f) (thresh su);
           fo_now := clock_now f;
           fo_cue := fst (cue_trigger (beep su)
                            (overlap_any dots (mpos f) (thresh su))
                            (clock_now f) last) |},
        snd (cue_trigger (beep su) (overlap_any dots (mpos f) (thresh su))
               (clock_now f) last)).
Proof.
  intros H. unfold frame_step. rewrite H. simpl.
  destruct (cue_trigger _ _ _ _). reflexivity.
Qed.

Lemma main_loop_cons (su : Setup) (last : R) (f : Frame) (fs : list Frame)
      (o : FrameOut) (last' : R) :
  escape f = false ->
  frame_step su last f = Ok (o, last') ->
  main_loop su last (f :: fs) = o :: main_loop su last' fs.
Proof. intros He Hs. simpl. now rewrite He, Hs. Qed.

(** On a setup the script produced, no iteration raises: without an escape
    key every delivered frame is completed. *)
Lemma main_loop_runs_every_frame (c : Config) (audio : bool) (frames : list Frame) :
  Forall (fun f => escape f = false) frames ->
  forall last,
    length (main_loop (setup_value c audio) last frames) = length frames.
Proof.
  induction 1 as [|f fs Hf _ IH]; intros last; [reflexivity|].
  rewrite (main_loop_cons _ _ _ _ _ _ Hf
             (frame_step_ok _ last _ _ (move_dots_setup c audio (clock_t f)))).
  simpl. now rewrite IH.
Qed.

(** All shuttles share one speed, so the whole population returns to the
    same positions after one period. *)
Lemma move_dots_periodic (su : Setup) (t s : R) :
  0 < s -> Forall (eq s) (white_speeds su) ->
  move_dots su (t + 1 / s) = move_dots su t.
Proof.
  intros Hs Hall. unfold move_dots.
  apply comprehension_ext. intros [i th] _.
  destruct (getitem (white_speeds su) i) as [sp|e] eqn:E; simpl; [|reflexivity].
  apply getitem_in in E. rewrite Forall_forall in Hall.
  rewrite <- (Hall _ E).
  destruct (getitem (phase_offsets su) i) as [off|e]; simpl; [|reflexivity].
  unfold dot_position. now rewrite dot_phase_periodic.
Qed.

End LoopFacts.

(** ** The script's own ring: twenty targets *)

Section ScriptRing.







End ScriptRing.

(** ** A concrete run: the mouse rides the first white dot *)

Section RidingRun.

Variable d : R.

Lemma riding_step (last : R) (k : nat) :
  exists dots cue last',
    frame_step (setup_value script_config true) last (riding_frame d k)
    = Ok ({| fo_dots := dots;
             fo_green := mpos (riding_frame d k);
             fo_overlap := true;
             fo_now := INR k * d;
             fo_cue := cue |}, last').
Proof.
  pose proof (move_dots_setup script_config true (clock_t (riding_frame d k))) as Hm.
  pose proof (frame_step_ok _ last _ _ Hm) as Hs.
  match type of Hs with
  | context [overlap_any ?ds ?g ?th] =>
      assert (Hov : overlap_any ds g th = true)
  end.
  { apply overlap_any_true_iff. eexists. split.
    - apply in_map_iff. exists 0%Z. split; [reflexivity|].
      apply in_range. unfold num_white_dots, num_pairs. simpl. lia.
    - change (num_white_dots script_config) with 9%Z.
      change (0 + 1)%Z with 1%Z.
      change (mpos (riding_frame d k)) with
        (dot_position (clock_t (riding_frame d k)) (speed_uniform script_config)
           (offset_at script_config 9 0) (angle_at script_config 1)
           (ring_radius script_config)
           (ring_radius script_config * ellipse_b_scale script_config)).
      rewrite distance_refl. simpl. lra. }
  rewrite Hov in Hs. eexists _, _, _. exact Hs.
Qed.

Lemma riding_trace (n : nat) :
  forall (k : nat) (last : R),
    let tr := main_loop (setup_value script_config true) last
                (map (riding_frame d) (seq k n)) in
    length tr = n
    /\ forall i, (i < n)%nat ->
                 fo_overlap (nth i tr no_frame) = true
                 /\ fo_now (nth i tr no_frame) = INR (k + i) * d.
Proof.
  induction n as [|n IH]; intros k last; simpl.
  - split; [reflexivity | intros i Hi; lia].
  - destruct (riding_step last k) as (dots & cue & last' & Hs).
    rewrite Hs. destruct (IH (S k) last') as [Hlen Hnth].
    simpl. split; [now rewrite Hlen|].
    intros [|i] Hi; simpl.
    + rewrite Nat.add_0_r. auto.
    + destruct (Hnth i) as [H1 H2]; [lia|]. split; [exact H1|].
      rewrite H2. f_equal. f_equal. lia.
Qed.

End RidingRun.

(** ** Pairs, opposite targets and the left start *)

Section PairFacts.

(** On an even ring, the target half a turn of indices further is the
    diametrically opposite one. *)
Lemma angle_at_opposite (c : Config) (i : Z) :
  Z.even (num_targets c) = true -> (0 < num_targets c)%Z ->
  angle_at c (i + num_pairs c) = angle_at c i + PI.
Proof.
  intros Hev Hpos. unfold angle_at, num_pairs.
  apply Zeven_bool_iff, Zeven_div2 in Hev.
  rewrite Z.div2_div in Hev.
  set (p := (num_targets c / 2)%Z) in *.
  rewrite Hev, plus_IZR, mult_IZR.
  assert (IZR p <> 0) by (apply not_0_IZR; lia).
  field. exact H.
Qed.

Lemma target_pos_opposite (c : Config) (i : Z) :
  Z.even (num_targets c) = true -> (0 < num_targets c)%Z ->
  target_pos c (angle_at c (i + num_pairs c))
  = (- ring_radius c * cos (angle_at c i), - ring_radius c * sin (angle_at c i)).
Proof.
  intros Hev Hpos. unfold target_pos.
  rewrite angle_at_opposite, neg_cos, neg_sin by assumption.
  f_equal; ring.
Qed.

(** The left-start base phase puts a dot on the endpoint of its pair that
    has negative x; when neither has, on the mid-cycle endpoint. *)
Lemma base_phase_left_start (theta a b : R) :
  0 < a ->
  let pos := ellipse_position (base_phase theta) theta a b in
  let e0 := (a * cos theta, a * sin theta) in
  let e1 := (- a * cos theta, - a * sin theta) in
  (pos = e0 \/ pos = e1)
  /\ (fst e0 < 0 \/ fst e1 < 0 -> fst pos < 0)
  /\ (~ fst e0 < 0 -> ~ fst e1 < 0 -> pos = e1).
Proof.
  intros Ha. cbv zeta. unfold base_phase.
  destruct (Rlt_dec (cos theta) 0) as [Hlt|Hge].
  - rewrite ellipse_position_phase_0.
    change (fst (a * cos theta, a * sin theta)) with (a * cos theta).
    assert (Hneg : a * cos theta < 0).
    { rewrite <- (Rmult_0_r a). apply Rmult_lt_compat_l; assumption. }
    split; [left; reflexivity|]. split.
    + intros _. exact Hneg.
    + intros H0 _. exfalso. apply H0. exact Hneg.
  - rewrite ellipse_position_phase_half.
    change (fst (a * cos theta, a * sin theta)) with (a * cos theta).
    change (fst (- a * cos theta, - a * sin theta)) with (- a * cos theta).
    assert (Hnn : 0 <= a * cos theta).
    { apply Rmult_le_pos; lra. }
    split; [right; reflexivity|]. split.
    + intros [H0 | H1]; [exfalso; lra | exact H1].
    + reflexivity.
Qed.

Lemma base_phase_cases (theta : R) :
  base_phase theta = 0 \/ base_phase theta = 1 / 2.
Proof. unfold base_phase. destruct (Rlt_dec _ _); auto. Qed.

Lemma base_phase_range (theta : R) : 0 <= base_phase theta < 1.
Proof. destruct (base_phase_cases theta) as [-> | ->]; lra. Qed.

(** Fields of the setup value, read by index. *)
Lemma setup_value_shuttle (c : Config) (audio : bool) (j : Z) :
  (0 <= j < num_white_dots c)%Z ->
  getitem (white_pair_indices c) j = Ok (j + 1)%Z
  /\ getitem (white_shuttles (setup_value c audio)) j = Ok (angle_at c (j + 1))
  /\ getitem (base_phases (setup_value c audio)) j
     = Ok (base_phase (angle_at c (j + 1)))
  /\ getitem (phase_offsets (setup_value c audio)) j
     = Ok (offset_at c (num_white_dots c) j).
Proof.
  intros Hj. rewrite white_pair_indices_eq. simpl.
  rewrite map_map, !getitem_map_range by exact Hj. auto.
Qed.

Lemma setup_value_target (c : Config) (audio : bool) (i : Z) :
  (0 <= i < num_targets c)%Z ->
  getitem (targets (setup_value c audio)) i = Ok (target_pos c (angle_at c i)).
Proof.
  intros Hi. simpl. rewrite map_map, getitem_map_range by exact Hi. reflexivity.
Qed.

Lemma num_pairs_bounds (c : Config) :
  (4 <= num_targets c)%Z ->
  (2 <= num_pairs c)%Z /\ (2 * num_pairs c <= num_targets c)%Z.
Proof.
  intros H. unfold num_pairs.
  pose proof (Z.div_le_lower_bound (num_targets c) 2 2).
  pose proof (Z.mul_div_le (num_targets c) 2). lia.
Qed.

Lemma even_num_pairs (c : Config) :
  Z.even (num_targets c) = true -> (num_targets c = 2 * num_pairs c)%Z.
Proof.
  intros Hev. unfold num_pairs.
  apply Zeven_bool_iff, Zeven_div2 in Hev. now rewrite Z.div2_div in Hev.
Qed.

Lemma setup_ok_inv (c : Config) (audio : bool) (su : Setup) :
  (4 <= num_targets c)%Z -> setup c audio = Ok su -> su = setup_value c audio.
Proof.
  intros HN H. rewrite setup_ok in H by exact HN. now injection H.
Qed.

End PairFacts.

(** ** No spread: every dot starts on the left *)

Section LeftStart.

Lemma offset_at_spread_0 (c : Config) (m j : Z) :
  phase_spread c = 0 -> offset_at c m j = base_phase (angle_at c (j + 1)).
Proof.
  intros Hs. unfold offset_at. rewrite Hs.
  replace (base_phase (angle_at c (j + 1)) + IZR j * (0 * (1 / IZR m)))
    with (base_phase (angle_at c (j + 1))) by ring.
  apply mod1_small, base_phase_range.
Qed.

Lemma dot_position_at_0 (s theta a b : R) :
  dot_position 0 s (base_phase theta) theta a b
  = ellipse_position (base_phase theta) theta a b.
Proof.
  unfold dot_position, dot_phase.
  replace (0 * s + base_phase theta) with (base_phase theta) by ring.
  now rewrite mod1_small by apply base_phase_range.
Qed.

(** With no spread, on an even ring of positive radius, every dot is on the
    left endpoint of its pair at clock time 0. *)
Lemma left_start_general (c : Config) (audio : bool) (j : Z) :
  Z.even (num_targets c) = true -> (4 <= num_targets c)%Z ->
  0 < ring_radius c -> phase_spread c = 0 ->
  (0 <= j < num_white_dots c)%Z ->
  exists su dots i pos e0 e1,
    setup c audio = Ok su
    /\ move_dots su 0 = Ok dots
    /\ getitem (white_pair_indices c) j = Ok i
    /\ getitem dots j = Ok pos
    /\ getitem (targets su) i = Ok e0
    /\ getitem (targets su) (i + num_pairs c) = Ok e1
    /\ (pos = e0 \/ pos = e1)
    /\ (fst e0 < 0 \/ fst e1 < 0 -> fst pos < 0)
    /\ (~ fst e0 < 0 -> ~ fst e1 < 0 -> pos = e1).
Proof.
  intros Hev HN Hr Hs Hj.
  destruct (num_pairs_bounds c HN) as [HP1 HP2].
  pose proof (even_num_pairs c Hev) as HNP.
  assert (HM : num_white_dots c = (num_pairs c - 1)%Z) by reflexivity.
  destruct (setup_value_shuttle c audio j Hj) as (Hi & _).
  exists (setup_value c audio). eexists. exists (j + 1)%Z.
  exists (ellipse_position (base_phase (angle_at c (j + 1))) (angle_at c (j + 1))
            (ring_radius c) (ring_radius c * ellipse_b_scale c)).
  exists (ring_radius c * cos (angle_at c (j + 1)),
          ring_radius c * sin (angle_at c (j + 1))).
  exists (- ring_radius c * cos (angle_at c (j + 1)),
          - ring_radius c * sin (angle_at c (j + 1))).
  split; [apply setup_ok; exact HN|].
  split; [apply move_dots_setup|].
  split; [exact Hi|].
  split.
  { rewrite getitem_map_range by exact Hj.
    rewrite offset_at_spread_0 by exact Hs.
    now rewrite dot_position_at_0. }
  split; [rewrite setup_value_target by lia; reflexivity|].
  split.
  { rewrite setup_value_target by lia.
    rewrite target_pos_opposite by (assumption || lia). reflexivity. }
  apply base_phase_left_start. exact Hr.
Qed.

End LeftStart.

(** ** Full spread: offsets relative to the base phase *)

Section SpreadFacts.




End SpreadFacts.

(** ** The first frame of the concrete run issues a cue *)

Section RidingCue.

Lemma riding_first_cue (d : R) (n : nat) :
  let tr := main_loop (setup_value script_config true) never
              (riding_frames d (S n)) in
  In (nth 0 tr no_frame) tr /\ fo_cue (nth 0 tr no_frame) = true.
Proof.
  pose proof (riding_trace d (S n) 0 never) as [Hlen Hnth].
  pose proof (main_loop_cue_consistent (setup_value script_config true)
                (riding_frames d (S n)) never) as Hc.
  unfold riding_frames in *. cbv zeta.
  destruct (main_loop (setup_value script_config true) never
              (map (riding_frame d) (seq 0 (S n)))) as [|o tr'];
    [discriminate Hlen|].
  destruct (Hnth 0%nat ltac:(lia)) as [Hov Hnow].
  simpl in Hov, Hnow, Hc |- *. destruct Hc as [Hc _].
  split; [left; reflexivity|].
  rewrite Hc. apply cue_trigger_fires.
  rewrite Hov, Hnow. unfold never, beep_interval.
  repeat split. lra.
Qed.

End RidingCue.

(** ** Properties of the specification *)

(** C1.  Cue Trigger.  With the beep available and a clock reading
    [now >= 0], a cue is issued exactly when overlap is true and either no
    cue was issued yet ([last_beep_time] is still -1.0) or at least 0.22 s
    passed since the last one, and then [last_beep_time] becomes [now],
    otherwise it is kept.  Along a run from the initial state whose frames
    are [d] seconds apart starting at 0, with [m * d = 0.22] and overlap true
    on every frame, the cues are issued exactly on frames 0, m, 2m, ...,
    that is at clock times 0, 0.22, 0.44, ... *)
Theorem cue_trigger_rule :
  (forall (overlap : bool) (now last : R),
      0 <= now ->
      (fst (cue_trigger true overlap now last) = true <->
         overlap = true /\ (last = never \/ now - last >= beep_interval))
      /\ snd (cue_trigger true overlap now last)
         = (if fst (cue_trigger true overlap now last) then now else last))
  /\ (forall (su : Setup) (frames : list Frame) (m : nat) (d : R),
        beep su = true ->
        0 < d -> INR m * d = beep_interval ->
        (forall i, (i < length (main_loop su never frames))%nat ->
           fo_overlap (nth i (main_loop su never frames) no_frame) = true
           /\ fo_now (nth i (main_loop su never frames) no_frame) = INR i * d) ->
        forall i, (i < length (main_loop su never frames))%nat ->
          (fo_cue (nth i (main_loop su never frames) no_frame) = true
           <-> (i mod m = 0)%nat)).
Proof.
  pose proof beep_interval_pos as Hpos.
  split.
  - intros overlap now last Hnow. split; [|apply cue_trigger_last].
    rewrite cue_trigger_fires. unfold never, beep_interval in *.
    split.
    + intros (_ & Ho & Hge). auto.
    + intros (Ho & [-> | Hge]); repeat split; auto; lra.
  - intros su frames m d Hb Hd Hm Hfr i Hi.
    pose proof (main_loop_cue_consistent su frames never) as Hc.
    rewrite Hb in Hc.
    destruct (main_loop su never frames) as [|o tr']; simpl in Hi; [lia|].
    assert (Hm1 : (1 <= m)%nat).
    { destruct m; [simpl in Hm; lra | lia]. }
    simpl in Hc. destruct Hc as [Hc Hrest].
    destruct (Hfr 0%nat) as [Hov Hnow]; [simpl; lia|].
    simpl in Hov, Hnow. rewrite Rmult_0_l in Hnow.
    assert (E : fo_cue o = true).
    { rewrite Hc. apply cue_trigger_fires. rewrite Hov, Hnow.
      unfold never, beep_interval. repeat split; lra. }
    destruct i as [|i']; simpl.
    + rewrite E, Nat.Div0.mod_0_l. tauto.
    + rewrite cue_trigger_last, <- Hc, E, Hnow in Hrest.
      rewrite (cue_consistent_steady m d tr' Hd Hm 1%nat 1%nat 0); auto; try lia.
      * replace (i' + 1)%nat with (S i') by lia. reflexivity.
      * simpl. lra.
      * intros j Hj. destruct (Hfr (S j)) as [H1 H2]; [simpl; lia|].
        simpl in H1. split; [exact H1|]. exact H2.
Qed.

Lemma cue_trigger_rule_witness :
  fst (cue_trigger true true 0 never) = true
  /\ fo_cue (nth 2 (main_loop (setup_value script_config true) never
                      (riding_frames (11 / 100) 5)) no_frame) = true.
Proof.
  split.
  - apply (proj1 (proj1 cue_trigger_rule true 0 never (Rle_refl 0))).
    split; [reflexivity | left; reflexivity].
  - destruct (riding_trace (11 / 100) 5 0 never) as [Hlen Hnth].
    apply (proj2 cue_trigger_rule (setup_value script_config true)
             (riding_frames (11 / 100) 5) 2%nat (11 / 100)).
    + reflexivity.
    + lra.
    + unfold beep_interval. simpl. lra.
    + unfold riding_frames. rewrite Hlen. exact Hnth.
    + unfold riding_frames. rewrite Hlen. lia.
    + reflexivity.
Defined.

(** C2.  Proximity Detector: the overlap boolean is true exactly when some
    shuttle point lies at Euclidean distance strictly below the threshold
    from the pointer.  A shuttle point coincident with the pointer gives
    overlap for every positive threshold; points at distance exactly the
    threshold (or beyond) give no overlap.  In the loop, every completed frame's
    overlap is this test on that frame's dot positions and mouse position. *)
Theorem overlap_any_strict (dots : list point) (green : point) (th : R) :
  (overlap_any dots green th = true <->
     exists p, In p dots /\ distance p green < th)
  /\ (In green dots -> 0 < th -> overlap_any dots green th = true)
  /\ ((forall p, In p dots -> distance p green >= th) ->
      overlap_any dots green th = false)
  /\ (forall su last frames o,
        In o (main_loop su last frames) ->
        (fo_overlap o = true <->
           exists p, In p (fo_dots o) /\ distance p (fo_green o) < thresh su)).
Proof.
  split; [apply overlap_any_true_iff|].
  split; [|split].
  - intros Hin Hth. apply overlap_any_true_iff.
    exists green. split; [exact Hin|]. rewrite distance_refl. exact Hth.
  - intros Hfar.
    destruct (overlap_any dots green th) eqn:E; [|reflexivity].
    apply overlap_any_true_iff in E. destruct E as [q [Hq Hlt]].
    specialize (Hfar q Hq). lra.
  - intros su last frames o Hin.
    destruct (main_loop_frames _ _ _ _ Hin) as (f & l & l' & _ & Hs).
    apply frame_step_dots in Hs. destruct Hs as (_ & _ & ->).
    apply overlap_any_true_iff.
Qed.

Lemma overlap_any_strict_witness :
  overlap_any [(0, 0)] (0, 0) 36 = true
  /\ overlap_any [(36, 0)] (0, 0) 36 = false.
Proof.
  split.
  - apply (proj1 (proj2 (overlap_any_strict [(0, 0)] (0, 0) 36))).
    + left. reflexivity.
    + lra.
  - apply (proj1 (proj2 (proj2 (overlap_any_strict [(36, 0)] (0, 0) 36)))).
    intros p [<- | []].
    unfold distance, hypot. simpl.
    replace ((36 - 0) * (36 - 0) + (0 - 0) * (0 - 0)) with (Rsqr 36)
      by (unfold Rsqr; lra).
    rewrite sqrt_Rsqr by lra. lra.
Defined.

(** C3.  Orbit Motion Model: for a positive speed the position at time
    [t + 1/s] is the position at time [t], for the single dot and for the
    whole population moved by one frame; and the dots of a completed frame
    are [move_dots] of the setup and that frame's clock reading alone,
    whatever [last_beep_time], the mouse or earlier frames were. *)
Theorem dot_position_periodic (t s o theta a b : R) :
  0 < s ->
  dot_position (t + 1 / s) s o theta a b = dot_position t s o theta a b
  /\ (forall su, Forall (eq s) (white_speeds su) ->
                 move_dots su (t + 1 / s) = move_dots su t)
  /\ (forall su last f out last',
        frame_step su last f = Ok (out, last') ->
        move_dots su (clock_t f) = Ok (fo_dots out)).
Proof.
  intros Hs. split; [|split].
  - unfold dot_position. now rewrite dot_phase_periodic.
  - intros su Hall. now apply move_dots_periodic.
  - intros su last f out last' H. now apply frame_step_dots in H.
Qed.

Lemma dot_position_periodic_witness :
  dot_position (1 + 1 / (15 / 100)) (15 / 100) (1 / 2) 0 250 (175 / 2)
  = dot_position 1 (15 / 100) (1 / 2) 0 250 (175 / 2).
Proof.
  apply (dot_position_periodic 1 (15 / 100) (1 / 2) 0 250 (175 / 2)). lra.
Defined.




(** C5.  With the script's twenty targets there are ten pairs and nine
    shuttle points, and with [phase_spread = 0] the setup returns and at
    clock time 0 every shuttle point [j] is on an endpoint of its pair
    [white_pair_indices[j]]: on the endpoint with negative x when one of the
    two has negative x, and on the mid-cycle endpoint (the target opposite
    to [targets[i]], reached at phase 0.5) when neither has. *)
Theorem left_start_twenty_targets (audio : bool) :
  (num_targets (with_spread 0 script_config) = 20%Z
   /\ num_pairs (with_spread 0 script_config) = 10%Z
   /\ num_white_dots (with_spread 0 script_config) = 9%Z
   /\ length (white_pair_indices (with_spread 0 script_config)) = 9%nat)
  /\ forall j, (0 <= j < 9)%Z ->
       exists su dots i pos e0 e1,
         setup (with_spread 0 script_config) audio = Ok su
         /\ length (white_shuttles su) = 9%nat
         /\ move_dots su 0 = Ok dots
         /\ length dots = 9%nat
         /\ getitem (white_pair_indices (with_spread 0 script_config)) j = Ok i
         /\ getitem dots j = Ok pos
         /\ getitem (targets su) i = Ok e0
         /\ getitem (targets su) (i + 10) = Ok e1
         /\ (pos = e0 \/ pos = e1)
         /\ (fst e0 < 0 \/ fst e1 < 0 -> fst pos < 0)
         /\ (~ fst e0 < 0 -> ~ fst e1 < 0 -> pos = e1).
Proof.
  split.
  - repeat split; reflexivity.
  - intros j Hj.
    assert (H4 : (4 <= num_targets (with_spread 0 script_config))%Z)
      by (change (4 <= 20)%Z; lia).
    assert (Hr : 0 < ring_radius (with_spread 0 script_config))
      by (change (0 < 250); lra).
    destruct (left_start_general (with_spread 0 script_config) audio j
                eq_refl H4 Hr eq_refl Hj)
      as (su & dots & i & pos & e0 & e1 & Hsu & Hd & Hi & Hp & H0 & H1 & Hrest).
    exists su, dots, i, pos, e0, e1.
    apply setup_ok_inv in Hsu; [|exact H4].
    assert (Hlen : length dots = 9%nat).
    { subst su. rewrite move_dots_setup in Hd.
      apply (f_equal (fun r => match r with Ok l => length l | Raise _ => 0%nat end)) in Hd.
      rewrite <- Hd, length_map, length_range. reflexivity. }
    subst su.
    split; [apply setup_ok; exact H4|].
    split; [reflexivity|].
    split; [exact Hd|]. split; [exact Hlen|].
    split; [exact Hi|]. split; [exact Hp|]. split; [exact H0|].
    split; [exact H1 | exact Hrest].
Qed.

Lemma left_start_twenty_targets_witness :
  exists su dots i pos e0 e1,
    setup (with_spread 0 script_config) true = Ok su
    /\ length (white_shuttles su) = 9%nat
    /\ move_dots su 0 = Ok dots
    /\ length dots = 9%nat
    /\ getitem (white_pair_indices (with_spread 0 script_config)) 4 = Ok i
    /\ getitem dots 4 = Ok pos
    /\ getitem (targets su) i = Ok e0
    /\ getitem (targets su) (i + 10) = Ok e1
    /\ (pos = e0 \/ pos = e1)
    /\ (fst e0 < 0 \/ fst e1 < 0 -> fst pos < 0)
    /\ (~ fst e0 < 0 -> ~ fst e1 < 0 -> pos = e1).
Proof.
  apply (proj2 (left_start_twenty_targets true) 4%Z). lia.
Defined.

(** C6, as stated, fails: the script has no validation step.  An odd
    target count, a spread of 2 and a negative ring radius are each a
    configuration error, and each is accepted: the setup returns and the
    loop starts. *)
Lemma config_errors_accepted :
  (config_error (with_targets 21 script_config)
   /\ exists su, setup (with_targets 21 script_config) true = Ok su
                 /\ len (white_shuttles su) = 9%Z
                 /\ forall frames,
                      script (with_targets 21 script_config) true frames
                      = Ok (main_loop su never frames))
  /\ (config_error (with_spread 2 script_config)
      /\ exists su, setup (with_spread 2 script_config) true = Ok su)
  /\ (config_error (with_ring_radius (-250) script_config)
      /\ exists su, setup (with_ring_radius (-250) script_config) true = Ok su).
Proof.
  split; [|split].
  - split; [left; reflexivity|].
    exists (setup_value (with_targets 21 script_config) true).
    assert (E : setup (with_targets 21 script_config) true
                = Ok (setup_value (with_targets 21 script_config) true))
      by (apply setup_ok; simpl; lia).
    split; [exact E|]. split; [reflexivity|].
    intros frames. unfold script. rewrite E. reflexivity.
  - split.
    + right; left. simpl. lra.
    + eexists. apply setup_ok. simpl. lia.
  - split.
    + right; right; left. simpl. lra.
    + eexists. apply setup_ok. simpl. lia.
Qed.

(** C6, amended.  The script validates nothing: for every target count of
    at least four, odd or even, and every value of the spread and of the
    radii, the setup returns, with [num_targets // 2 - 1] shuttle points and
    the spread and radii as given, and the frame loop starts. *)
Theorem setup_accepts_any_config
        (c : Config) (audio : bool) (frames : list Frame) :
  (4 <= num_targets c)%Z ->
  exists su,
    setup c audio = Ok su
    /\ script c audio frames = Ok (main_loop su never frames)
    /\ len (white_shuttles su) = (num_targets c / 2 - 1)%Z
    /\ len (targets su) = num_targets c
    /\ ell_a su = ring_radius c
    /\ phase_offsets su
       = map (fun j => mod1 (base_phase (angle_at c (j + 1))
                             + IZR j * (phase_spread c
                                        * (1 / IZR (num_targets c / 2 - 1)))))
           (range (num_targets c / 2 - 1)).
Proof.
  intros HN. exists (setup_value c audio).
  pose proof (setup_ok c audio HN) as E.
  destruct (num_pairs_bounds c HN) as [HP1 _]. unfold num_pairs in HP1.
  split; [exact E|].
  split; [unfold script; rewrite E; reflexivity|].
  split.
  { unfold len. simpl. rewrite length_map, length_range.
    unfold num_white_dots, num_pairs. lia. }
  split.
  { unfold len. simpl. rewrite !length_map, length_range. lia. }
  split; reflexivity.
Qed.

Lemma setup_accepts_any_config_witness :
  exists su,
    setup (with_targets 21 (with_spread 2 script_config)) false = Ok su
    /\ script (with_targets 21 (with_spread 2 script_config)) false [] = Ok (main_loop su never [])
    /\ len (white_shuttles su) = (21 / 2 - 1)%Z
    /\ len (targets su) = 21%Z
    /\ ell_a su = 250
    /\ phase_offsets su
       = map (fun j => mod1 (base_phase (angle_at (with_targets 21 (with_spread 2 script_config)) (j + 1))
                             + IZR j * (2 * (1 / IZR (21 / 2 - 1)))))
           (range (21 / 2 - 1)).
Proof.
  apply (setup_accepts_any_config
           (with_targets 21 (with_spread 2 script_config)) false []).
  simpl. lia.
Defined.

(** C7.  With two targets there is one pair and no shuttle point; the guard
    [max(1, len(white_shuttles))] keeps the division defined, but the
    comprehension then runs over [range(1)] and reads [base_phases[0]] from
    the empty list: the setup raises [IndexError] for every spread. *)
Theorem setup_two_targets_raises (spread : R) (audio : bool) :
  num_white_dots (with_targets 2 (with_spread spread script_config)) = 0%Z
  /\ float_div 1 (IZR (Z.max 1 (len (@nil R)))) = Ok (1 / 1)
  /\ build_phase_offsets spread [] [] = Raise IndexError
  /\ setup (with_targets 2 (with_spread spread script_config)) audio
     = Raise IndexError.
Proof.
  split; [reflexivity|]. split; [|split].
  - unfold float_div. change (Z.max 1 (len (@nil R))) with 1%Z.
    destruct (Req_dec_T 1 0) as [E|_]; [lra | reflexivity].
  - apply build_phase_offsets_empty.
  - apply setup_one_pair. simpl. lia.
Qed.

(** C8.  Along every run of the frame loop, from any [last_beep_time], a cue
    is issued only on a frame whose overlap is true, and the clock readings
    of any two cues, in order, are at least the debounce interval apart. *)
Theorem cues_debounced (su : Setup) (last : R) (frames : list Frame) :
  (forall o, In o (main_loop su last frames) ->
             fo_cue o = true -> fo_overlap o = true)
  /\ ForallOrdPairs (fun x y => y - x >= beep_interval)
       (cue_times (main_loop su last frames)).
Proof.
  pose proof (main_loop_cue_consistent su frames last) as Hc.
  split.
  - now apply (cue_consistent_overlap (beep su) _ last).
  - now apply (cue_consistent_spacing (beep su) _ last).
Qed.

Lemma cues_debounced_witness :
  fo_overlap (nth 0 (main_loop (setup_value script_config true) never
                       (riding_frames (1 / 100) 40)) no_frame) = true
  /\ ForallOrdPairs (fun x y => y - x >= beep_interval)
       (cue_times (main_loop (setup_value script_config true) never
                     (riding_frames (1 / 100) 40))).
Proof.
  split.
  - apply (proj1 (cues_debounced (setup_value script_config true) never
                    (riding_frames (1 / 100) 40)));
      apply (riding_first_cue (1 / 100) 39).
  - apply (proj2 (cues_debounced (setup_value script_config true) never
                    (riding_frames (1 / 100) 40))).
Defined.

(** C9.  With the script's parameters the setup returns a semi-minor axis
    of 87.5, and the ellipse position at phase 0.25 with orientation 0 is
    (0, 87.5). *)
Theorem quarter_phase_position (audio : bool) :
  exists su,
    setup script_config audio = Ok su
    /\ ell_a su = 250
    /\ ell_b su = 175 / 2
    /\ ellipse_position (1 / 4) 0 (ell_a su) (ell_b su) = (0, 175 / 2).
Proof.
  exists (setup_value script_config audio).
  split; [apply setup_ok; simpl; lia|].
  simpl. split; [reflexivity|]. split; [lra|].
  rewrite ellipse_position_phase_quarter, sin_0, cos_0.
  f_equal; lra.
Qed.

(** C10.  The semi-major axis is the ring radius, so on an even ring every
    shuttle's ellipse passes through the two targets of its pair: at phase 0
    the position is the target [targets[i]] at the shuttle's angle, and at
    phase 0.5 it is the diametrically opposite target
    [targets[i + num_pairs]]. *)
Theorem orbit_through_pair_targets (c : Config) (audio : bool) (su : Setup) (j : Z) :
  Z.even (num_targets c) = true -> (4 <= num_targets c)%Z ->
  setup c audio = Ok su ->
  (0 <= j < len (white_shuttles su))%Z ->
  exists i theta,
    getitem (white_pair_indices c) j = Ok i
    /\ getitem (white_shuttles su) j = Ok theta
    /\ ell_a su = ring_radius c
    /\ getitem (targets su) i
       = Ok (ring_radius c * cos theta, ring_radius c * sin theta)
    /\ ellipse_position 0 theta (ell_a su) (ell_b su)
       = (ring_radius c * cos theta, ring_radius c * sin theta)
    /\ getitem (targets su) (i + num_pairs c)
       = Ok (- ring_radius c * cos theta, - ring_radius c * sin theta)
    /\ ellipse_position (1 / 2) theta (ell_a su) (ell_b su)
       = (- ring_radius c * cos theta, - ring_radius c * sin theta).
Proof.
  intros Hev HN Hsu Hj.
  apply setup_ok_inv in Hsu; [|exact HN]. subst su.
  destruct (num_pairs_bounds c HN) as [HP1 HP2].
  pose proof (even_num_pairs c Hev) as HNP.
  assert (HM : num_white_dots c = (num_pairs c - 1)%Z) by reflexivity.
  assert (Hj' : (0 <= j < num_white_dots c)%Z).
  { unfold len in Hj. simpl in Hj.
    rewrite length_map, length_range in Hj. lia. }
  destruct (setup_value_shuttle c audio j Hj') as (Hi & Hth & _).
  exists (j + 1)%Z, (angle_at c (j + 1)).
  split; [exact Hi|]. split; [exact Hth|]. split; [reflexivity|].
  split; [rewrite setup_value_target by lia; reflexivity|].
  split; [apply ellipse_position_phase_0|].
  split.
  - rewrite setup_value_target by lia.
    rewrite target_pos_opposite by (assumption || lia). reflexivity.
  - apply ellipse_position_phase_half.
Qed.

Lemma orbit_through_pair_targets_witness :
  exists i theta,
    getitem (white_pair_indices script_config) 3 = Ok i
    /\ getitem (white_shuttles (setup_value script_config true)) 3 = Ok theta
    /\ ell_a (setup_value script_config true) = ring_radius script_config
    /\ getitem (targets (setup_value script_config true)) i
       = Ok (ring_radius script_config * cos theta,
             ring_radius script_config * sin theta)
    /\ ellipse_position 0 theta (ell_a (setup_value script_config true))
         (ell_b (setup_value script_config true))
       = (ring_radius script_config * cos theta,
          ring_radius script_config * sin theta)
    /\ getitem (targets (setup_value script_config true))
         (i + num_pairs script_config)
       = Ok (- ring_radius script_config * cos theta,
             - ring_radius script_config * sin theta)
    /\ ellipse_position (1 / 2) theta (ell_a (setup_value script_config true))
         (ell_b (setup_value script_config true))
       = (- ring_radius script_config * cos theta,
          - ring_radius script_config * sin theta).
Proof.
  apply (orbit_through_pair_targets script_config true
           (setup_value script_config true) 3%Z).
  - reflexivity.
  - simpl. lia.
  - apply setup_ok. simpl. lia.
  - change (0 <= 3 < 9)%Z. lia.
Defined.

(** ** Further properties of the script *)

Section SetupOutcome.

Lemma setup_negative (c : Config) (audio : bool) :
  (num_targets c < 0)%Z -> setup c audio = Raise ValueError.
Proof.
  intros HN. unfold setup, linspace_open.
  replace (num_targets c <? 0)%Z with true by (symmetry; apply Z.ltb_lt; lia).
  reflexivity.
Qed.

(** Below four targets there is no shuttle dot and the phase offsets cannot
    be built. *)
Lemma setup_few (c : Config) (audio : bool) :
  (0 <= num_targets c <= 3)%Z -> setup c audio = Raise IndexError.
Proof.
  intros HN. unfold setup.
  rewrite linspace_angles by lia. simpl.
  rewrite setup_thetas by lia. simpl.
  assert (HM : (num_white_dots c <= 0)%Z).
  { unfold num_white_dots, num_pairs.
    pose proof (Z.div_lt_upper_bound (num_targets c) 2 2). lia. }
  assert (E : range (num_white_dots c) = []).
  { unfold range. replace (Z.to_nat (num_white_dots c)) with 0%nat by lia.
    reflexivity. }
  rewrite E. simpl. rewrite build_phase_offsets_empty. reflexivity.
Qed.

Lemma setup_returns_inv (c : Config) (audio : bool) (su : Setup) :
  setup c audio = Ok su ->
  (4 <= num_targets c)%Z /\ su = setup_value c audio.
Proof.
  intros H.
  destruct (Z_lt_ge_dec (num_targets c) 0) as [Hneg|Hnn].
  - rewrite setup_negative in H by exact Hneg. discriminate.
  - destruct (Z_lt_ge_dec (num_targets c) 4) as [Hlt|Hge].
    + rewrite setup_few in H by lia. discriminate.
    + split; [lia|]. apply setup_ok_inv; [lia | exact H].
Qed.

Lemma len_range (n : Z) : (0 <= n)%Z -> len (range n) = n.
Proof. intros H. unfold len. rewrite length_range. lia. Qed.

Lemma num_white_dots_pos (c : Config) :
  (4 <= num_targets c)%Z -> (1 <= num_white_dots c)%Z.
Proof.
  intros H. destruct (num_pairs_bounds c H) as [HP _].
  unfold num_white_dots. lia.
Qed.

Lemma target_pos_distance (c : Config) (ang : R) :
  distance (target_pos c ang) (0, 0) = Rabs (ring_radius c).
Proof.
  unfold distance, hypot, target_pos. simpl.
  rewrite <- sqrt_Rsqr_abs. f_equal.
  pose proof (sin2_cos2 ang) as H. unfold Rsqr in *.
  replace ((ring_radius c * cos ang - 0) * (ring_radius c * cos ang - 0)
           + (ring_radius c * sin ang - 0) * (ring_radius c * sin ang - 0))
    with (ring_radius c * ring_radius c * (sin ang * sin ang + cos ang * cos ang))
    by ring.
  rewrite H. ring.
Qed.

Lemma strongly_sorted_succ_range (a n : nat) :
  StronglySorted Z.lt (map (fun j => (j + 1)%Z) (map Z.of_nat (seq a n))).
Proof.
  revert a. induction n as [|n IH]; intros a; simpl; constructor.
  - apply IH.
  - apply Forall_forall. intros x Hx.
    apply in_map_iff in Hx. destruct Hx as (y & <- & Hy).
    apply in_map_iff in Hy. destruct Hy as (k & <- & Hk).
    apply in_seq in Hk. lia.
Qed.

Lemma strongly_sorted_lt_nodup (l : list Z) : StronglySorted Z.lt l -> NoDup l.
Proof.
  induction 1 as [|x l Hs IH Hall]; constructor; [|exact IH].
  intros Hin. rewrite Forall_forall in Hall. specialize (Hall x Hin). lia.
Qed.

End SetupOutcome.

(** X1.  Setup outcome by target count: a negative count raises
    [ValueError] (from [np.linspace]), a count from 0 to 3 raises
    [IndexError] (no shuttle dot, [base_phases[0]] is read from an empty
    list), and from 4 on the setup returns, whatever the other parameters
    and whether or not the sound could be created. *)
Theorem setup_outcome (c : Config) (audio : bool) :
  setup c audio =
  if (num_targets c <? 0)%Z then Raise ValueError
  else if (num_targets c <? 4)%Z then Raise IndexError
  else Ok (setup_value c audio).
Proof.
  destruct (num_targets c <? 0)%Z eqn:E0.
  - apply setup_negative. now apply Z.ltb_lt.
  - apply Z.ltb_ge in E0.
    destruct (num_targets c <? 4)%Z eqn:E4.
    + apply setup_few. apply Z.ltb_lt in E4. lia.
    + apply setup_ok. apply Z.ltb_ge in E4. lia.
Qed.

(** X2.  Ring layout: when the setup returns there are [num_targets]
    angles and targets, consecutive angles are [2*pi/num_targets] apart
    starting from 0, and target [k] is at
    [(R cos(2 pi k / N), R sin(2 pi k / N))], at distance [|R|] from the
    centre. *)
Theorem ring_layout (c : Config) (audio : bool) (su : Setup) (k : Z) :
  setup c audio = Ok su ->
  (0 <= k < num_targets c)%Z ->
  len (angles su) = num_targets c
  /\ len (targets su) = num_targets c
  /\ exists ang p,
       getitem (angles su) k = Ok ang
       /\ ang = IZR k * (2 * PI / IZR (num_targets c))
       /\ getitem (targets su) k = Ok p
       /\ p = (ring_radius c * cos ang, ring_radius c * sin ang)
       /\ distance p (0, 0) = Rabs (ring_radius c).
Proof.
  intros Hsu Hk. apply setup_returns_inv in Hsu. destruct Hsu as [HN ->].
  split; [|split].
  - simpl. unfold len. rewrite length_map, length_range. lia.
  - simpl. unfold len. rewrite !length_map, length_range. lia.
  - exists (angle_at c k), (target_pos c (angle_at c k)).
    split; [simpl; now rewrite getitem_map_range|].
    split; [unfold angle_at; lra|].
    split; [now apply setup_value_target|].
    split; [reflexivity | apply target_pos_distance].
Qed.

Lemma ring_layout_witness :
  exists ang p,
    getitem (angles (setup_value script_config true)) 7 = Ok ang
    /\ ang = 7 * (2 * PI / 20)
    /\ getitem (targets (setup_value script_config true)) 7 = Ok p
    /\ p = (250 * cos ang, 250 * sin ang)
    /\ distance p (0, 0) = Rabs 250.
Proof.
  apply (ring_layout script_config true (setup_value script_config true) 7%Z).
  - apply setup_ok. simpl. lia.
  - simpl. lia.
Defined.

(** X3.  Opposite targets and the green pair: on an even ring, target
    [k + num_pairs] is the reflection of target [k] through the centre, and
    the green markers are at [(R, 0)] and [(-R, 0)]. *)
Theorem opposite_targets (c : Config) (audio : bool) (su : Setup) (k : Z) :
  Z.even (num_targets c) = true ->
  setup c audio = Ok su ->
  (0 <= k < num_pairs c)%Z ->
  (exists p q,
      getitem (targets su) k = Ok p
      /\ getitem (targets su) (k + num_pairs c) = Ok q
      /\ q = (- fst p, - snd p))
  /\ green_pair_pos_a su = (ring_radius c, 0)
  /\ green_pair_pos_b su = (- ring_radius c, 0).
Proof.
  intros Hev Hsu Hk. apply setup_returns_inv in Hsu. destruct Hsu as [HN ->].
  destruct (num_pairs_bounds c HN) as [HP1 HP2].
  pose proof (even_num_pairs c Hev) as HNP.
  assert (A0 : angle_at c 0 = 0) by (unfold angle_at; lra).
  split; [|split].
  - exists (target_pos c (angle_at c k)),
           (target_pos c (angle_at c (k + num_pairs c))).
    split; [apply setup_value_target; lia|].
    split; [apply setup_value_target; lia|].
    rewrite target_pos_opposite by (assumption || lia).
    unfold target_pos. simpl. f_equal; ring.
  - simpl. unfold target_pos. rewrite A0, cos_0, sin_0. f_equal; ring.
  - change (green_pair_pos_b (setup_value c audio))
      with (target_pos c (angle_at c ((green_pair_index + num_pairs c)
                                      mod num_targets c))).
    replace ((green_pair_index + num_pairs c) mod num_targets c)%Z
      with (0 + num_pairs c)%Z
      by (unfold green_pair_index; rewrite Z.mod_small; lia).
    rewrite target_pos_opposite by (assumption || lia).
    rewrite A0, cos_0, sin_0. f_equal; ring.
Qed.

Lemma opposite_targets_witness :
  (exists p q,
      getitem (targets (setup_value script_config false)) 3 = Ok p
      /\ getitem (targets (setup_value script_config false))
           (3 + num_pairs script_config) = Ok q
      /\ q = (- fst p, - snd p))
  /\ green_pair_pos_a (setup_value script_config false) = (250, 0)
  /\ green_pair_pos_b (setup_value script_config false) = (- 250, 0).
Proof.
  apply (opposite_targets script_config false (setup_value script_config false) 3%Z).
  - reflexivity.
  - apply setup_ok. simpl. lia.
  - change (0 <= 3 < 10)%Z. lia.
Defined.

(** X4.  Pair allocation: for every target count, the pairs given a white
    dot are exactly the indices [1 .. num_pairs - 1], in ascending order and
    without repetition; the green pair's index 0 is never among them. *)
Theorem white_pair_indices_spec (c : Config) :
  (forall i, In i (white_pair_indices c) <-> (1 <= i < num_pairs c)%Z)
  /\ StronglySorted Z.lt (white_pair_indices c)
  /\ NoDup (white_pair_indices c)
  /\ ~ In green_pair_index (white_pair_indices c)
  /\ len (white_pair_indices c) = Z.max 0 (num_pairs c - 1).
Proof.
  assert (Hin : forall i, In i (white_pair_indices c) <-> (1 <= i < num_pairs c)%Z).
  { intros i. rewrite white_pair_indices_eq, in_map_iff. split.
    - intros (j & <- & Hj). apply in_range in Hj.
      unfold num_white_dots in Hj. lia.
    - intros Hi. exists (i - 1)%Z. split; [lia|].
      apply in_range. unfold num_white_dots. lia. }
  assert (Hs : StronglySorted Z.lt (white_pair_indices c)).
  { rewrite white_pair_indices_eq. apply strongly_sorted_succ_range. }
  split; [exact Hin|]. split; [exact Hs|].
  split; [now apply strongly_sorted_lt_nodup|].
  split.
  - intros H0. apply Hin in H0. unfold green_pair_index in H0. lia.
  - rewrite white_pair_indices_eq. unfold len.
    rewrite length_map, length_range. unfold num_white_dots. lia.
Qed.

Section GeometryFacts.

Lemma cos_shift_int (x : R) (k : Z) : cos (x + 2 * IZR k * PI) = cos x.
Proof.
  destruct (Z_le_gt_dec 0 k) as [Hk|Hk].
  - rewrite <- (Z2Nat.id k) by exact Hk. rewrite <- INR_IZR_INZ.
    apply cos_period.
  - rewrite <- (cos_period (x + 2 * IZR k * PI) (Z.to_nat (- k))).
    rewrite INR_IZR_INZ, Z2Nat.id, opp_IZR by lia. f_equal. ring.
Qed.

Lemma sin_shift_int (x : R) (k : Z) : sin (x + 2 * IZR k * PI) = sin x.
Proof.
  destruct (Z_le_gt_dec 0 k) as [Hk|Hk].
  - rewrite <- (Z2Nat.id k) by exact Hk. rewrite <- INR_IZR_INZ.
    apply sin_period.
  - rewrite <- (sin_period (x + 2 * IZR k * PI) (Z.to_nat (- k))).
    rewrite INR_IZR_INZ, Z2Nat.id, opp_IZR by lia. f_equal. ring.
Qed.

Lemma ellipse_position_add_int (ph theta a b : R) (k : Z) :
  ellipse_position (ph + IZR k) theta a b = ellipse_position ph theta a b.
Proof.
  unfold ellipse_position.
  replace (2 * PI * (ph + IZR k)) with (2 * PI * ph + 2 * IZR k * PI) by ring.
  now rewrite cos_shift_int, sin_shift_int.
Qed.

Lemma ellipse_position_mod1 (ph theta a b : R) :
  ellipse_position (mod1 ph) theta a b = ellipse_position ph theta a b.
Proof.
  unfold mod1.
  replace (ph - IZR (Int_part ph)) with (ph + IZR (- Int_part ph))
    by (rewrite opp_IZR; ring).
  apply ellipse_position_add_int.
Qed.

Lemma ellipse_position_add_half (ph theta a b : R) :
  ellipse_position (ph + 1 / 2) theta a b
  = (- fst (ellipse_position ph theta a b), - snd (ellipse_position ph theta a b)).
Proof.
  unfold ellipse_position. simpl.
  replace (2 * PI * (ph + 1 / 2)) with (2 * PI * ph + PI) by lra.
  rewrite neg_cos, neg_sin. f_equal; ring.
Qed.

Lemma ellipse_position_norm (ph theta a b : R) :
  let p := ellipse_position ph theta a b in
  fst p * fst p + snd p * snd p
  = a * a * (cos (2 * PI * ph) * cos (2 * PI * ph))
    + b * b * (sin (2 * PI * ph) * sin (2 * PI * ph)).
Proof.
  unfold ellipse_position. simpl.
  pose proof (sin2_cos2 theta) as H. unfold Rsqr in H.
  set (C := cos theta) in *. set (S := sin theta) in *.
  set (ex := a * cos (2 * PI * ph)). set (ey := b * sin (2 * PI * ph)).
  replace ((ex * C - ey * S) * (ex * C - ey * S)
           + (ex * S + ey * C) * (ex * S + ey * C))
    with ((ex * ex + ey * ey) * (S * S + C * C)) by ring.
  rewrite H. unfold ex, ey. ring.
Qed.

Lemma distance_origin (p : point) :
  distance p (0, 0) = sqrt (fst p * fst p + snd p * snd p).
Proof. unfold distance, hypot. simpl. f_equal. ring. Qed.

Lemma distance_as_dist_euc (p q : point) :
  distance p q = dist_euc (fst p) (snd p) (fst q) (snd q).
Proof. reflexivity. Qed.

Lemma abs_le_sqr (x y : R) : Rabs x <= Rabs y -> x * x <= y * y.
Proof.
  intros H. pose proof (Rabs_pos x). 
  replace (x * x) with (Rabs x * Rabs x)
    by (unfold Rabs; destruct (Rcase_abs x); ring).
  replace (y * y) with (Rabs y * Rabs y)
    by (unfold Rabs; destruct (Rcase_abs y); ring).
  nra.
Qed.

(** A point of the ellipse is no further from the centre than the longer
    semi-axis and no nearer than the shorter one. *)
Lemma ellipse_position_bounds (ph theta a b : R) :
  Rabs b <= Rabs a ->
  Rabs b <= distance (ellipse_position ph theta a b) (0, 0) <= Rabs a.
Proof.
  intros Hab. rewrite distance_origin, ellipse_position_norm.
  pose proof (sin2_cos2 (2 * PI * ph)) as H. unfold Rsqr in H.
  pose proof (abs_le_sqr b a Hab) as Hsq.
  set (C := cos (2 * PI * ph)) in *. set (S := sin (2 * PI * ph)) in *.
  assert (HC : 0 <= C * C) by nra. assert (HS : 0 <= S * S) by nra.
  rewrite <- (sqrt_Rsqr_abs a), <- (sqrt_Rsqr_abs b). unfold Rsqr.
  split; apply sqrt_le_1_alt; nra.
Qed.

End GeometryFacts.

(** X5.  Shuttle lists: when the setup returns, the shuttles, speeds, base
    phases and phase offsets all have [num_pairs - 1] entries (one per
    white pair), every phase offset lies in [[0, 1)], every base phase is 0
    or 0.5, and every speed is [speed_uniform]. *)
Theorem shuttle_lists_well_formed (c : Config) (audio : bool) (su : Setup) :
  setup c audio = Ok su ->
  len (white_shuttles su) = (num_pairs c - 1)%Z
  /\ len (white_speeds su) = (num_pairs c - 1)%Z
  /\ len (base_phases su) = (num_pairs c - 1)%Z
  /\ len (phase_offsets su) = (num_pairs c - 1)%Z
  /\ Forall (fun o => 0 <= o < 1) (phase_offsets su)
  /\ Forall (fun b => b = 0 \/ b = 1 / 2) (base_phases su)
  /\ Forall (eq (speed_uniform c)) (white_speeds su).
Proof.
  intros Hsu. apply setup_returns_inv in Hsu. destruct Hsu as [HN ->].
  pose proof (num_white_dots_pos c HN) as HM.
  assert (HL : Z.of_nat (Z.to_nat (num_white_dots c)) = (num_pairs c - 1)%Z)
    by (unfold num_white_dots in *; lia).
  simpl. unfold len. rewrite !length_map, length_range.
  repeat (split; [exact HL|]).
  split; [|split]; apply Forall_forall; intros x Hx.
  - apply in_map_iff in Hx. destruct Hx as (j & <- & _). apply mod1_range.
  - apply in_map_iff in Hx. destruct Hx as (th & <- & _). apply base_phase_cases.
  - apply in_map_iff in Hx. destruct Hx as (th & <- & _). reflexivity.
Qed.

Lemma shuttle_lists_well_formed_witness :
  len (white_shuttles (setup_value script_config true)) = (num_pairs script_config - 1)%Z
  /\ len (white_speeds (setup_value script_config true)) = (num_pairs script_config - 1)%Z
  /\ len (base_phases (setup_value script_config true)) = (num_pairs script_config - 1)%Z
  /\ len (phase_offsets (setup_value script_config true)) = (num_pairs script_config - 1)%Z
  /\ Forall (fun o => 0 <= o < 1) (phase_offsets (setup_value script_config true))
  /\ Forall (fun b => b = 0 \/ b = 1 / 2) (base_phases (setup_value script_config true))
  /\ Forall (eq (speed_uniform script_config))
       (white_speeds (setup_value script_config true)).
Proof.
  apply (shuttle_lists_well_formed script_config true).
  apply setup_ok. simpl. lia.
Defined.

(** X6.  No spread: with [phase_spread = 0] the phase offsets are the base
    phases themselves, whatever the target count, so at clock time 0 every
    white dot is on the left half of the display ([x <= 0]) when the ring
    radius is not negative. *)
Theorem spread_zero_offsets_are_bases
        (c : Config) (audio : bool) (su : Setup) (dots : list point) :
  setup c audio = Ok su ->
  phase_spread c = 0 ->
  0 <= ring_radius c ->
  move_dots su 0 = Ok dots ->
  phase_offsets su = base_phases su
  /\ Forall (fun p => fst p <= 0) dots.
Proof.
  intros Hsu Hs Hr Hd. apply setup_returns_inv in Hsu. destruct Hsu as [HN ->].
  split.
  - simpl. rewrite map_map. apply map_ext. intros j.
    now apply offset_at_spread_0.
  - rewrite move_dots_setup in Hd. injection Hd as <-.
    apply Forall_forall. intros p Hp.
    apply in_map_iff in Hp. destruct Hp as (j & <- & _).
    rewrite offset_at_spread_0 by exact Hs.
    rewrite dot_position_at_0. unfold base_phase.
    destruct (Rlt_dec (cos (angle_at c (j + 1))) 0) as [Hlt|Hge].
    + rewrite ellipse_position_phase_0. simpl. nra.
    + rewrite ellipse_position_phase_half. simpl. nra.
Qed.

Lemma spread_zero_offsets_are_bases_witness :
  exists dots,
    move_dots (setup_value (with_targets 7 (with_spread 0 script_config)) true) 0
    = Ok dots
    /\ phase_offsets (setup_value (with_targets 7 (with_spread 0 script_config)) true)
       = base_phases (setup_value (with_targets 7 (with_spread 0 script_config)) true)
    /\ Forall (fun p => fst p <= 0) dots.
Proof.
  eexists. split; [apply move_dots_setup|].
  apply (spread_zero_offsets_are_bases
           (with_targets 7 (with_spread 0 script_config)) true).
  - apply setup_ok. simpl. lia.
  - reflexivity.
  - simpl. lra.
  - apply move_dots_setup.
Defined.

(** X7.  The ellipse stays inside the ring: when the semi-minor axis is no
    longer than the semi-major one, every point of [ellipse_position] is at
    distance between [|b|] and [|a|] from the centre; so with
    [|ellipse_b_scale| <= 1] every white dot of every frame is within the
    ring radius of the centre. *)
Theorem dots_stay_inside_ring
        (c : Config) (audio : bool) (su : Setup) (t : R) (dots : list point) :
  Rabs (ellipse_b_scale c) <= 1 ->
  setup c audio = Ok su ->
  move_dots su t = Ok dots ->
  Forall (fun p => Rabs (ell_b su) <= distance p (0, 0) <= Rabs (ring_radius c)) dots.
Proof.
  intros Hb Hsu Hd. apply setup_returns_inv in Hsu. destruct Hsu as [HN ->].
  rewrite move_dots_setup in Hd. injection Hd as <-.
  apply Forall_forall. intros p Hp.
  apply in_map_iff in Hp. destruct Hp as (j & <- & _).
  simpl. apply ellipse_position_bounds.
  rewrite Rabs_mult. pose proof (Rabs_pos (ring_radius c)). nra.
Qed.

Lemma dots_stay_inside_ring_witness :
  exists dots,
    move_dots (setup_value script_config true) 3 = Ok dots
    /\ Forall (fun p => Rabs (ell_b (setup_value script_config true))
                        <= distance p (0, 0) <= Rabs (ring_radius script_config)) dots.
Proof.
  eexists. split; [apply move_dots_setup|].
  apply (dots_stay_inside_ring script_config true (setup_value script_config true) 3).
  - simpl. unfold Rabs. destruct (Rcase_abs (35 / 100)); lra.
  - apply setup_ok. simpl. lia.
  - apply move_dots_setup.
Defined.

(** X8.  Half a period later a dot is at the point opposite through the
    centre: the shuttle travels from one target of its pair to the other in
    [1 / (2 s)] seconds.  Taking the phase modulo 1 does not change the
    position. *)
Theorem half_period_opposite (t s o theta a b : R) :
  0 < s ->
  dot_position (t + 1 / (2 * s)) s o theta a b
  = (- fst (dot_position t s o theta a b), - snd (dot_position t s o theta a b))
  /\ dot_position t s o theta a b = ellipse_position (t * s + o) theta a b.
Proof.
  intros Hs. unfold dot_position, dot_phase.
  rewrite !ellipse_position_mod1. split; [|reflexivity].
  replace ((t + 1 / (2 * s)) * s + o) with (t * s + o + 1 / 2) by (field; lra).
  apply ellipse_position_add_half.
Qed.

Lemma half_period_opposite_witness :
  dot_position (2 + 1 / (2 * (15 / 100))) (15 / 100) (1 / 2) 1 250 (175 / 2)
  = (- fst (dot_position 2 (15 / 100) (1 / 2) 1 250 (175 / 2)),
     - snd (dot_position 2 (15 / 100) (1 / 2) 1 250 (175 / 2)))
  /\ dot_position 2 (15 / 100) (1 / 2) 1 250 (175 / 2)
     = ellipse_position (2 * (15 / 100) + 1 / 2) 1 250 (175 / 2).
Proof.
  apply (half_period_opposite 2 (15 / 100) (1 / 2) 1 250 (175 / 2)). lra.
Defined.

(** X9.  [distance] is a metric on the plane: non-negative, symmetric, zero
    exactly between equal points, and it obeys the triangle inequality. *)
Theorem distance_metric (p q r : point) :
  0 <= distance p q
  /\ distance p q = distance q p
  /\ (distance p q = 0 <-> p = q)
  /\ distance p r <= distance p q + distance q r.
Proof.
  split; [apply sqrt_pos|].
  split.
  { rewrite !distance_as_dist_euc. apply distance_symm. }
  split.
  - split.
    + intros H. destruct p as [px py], q as [qx qy].
      unfold distance, hypot in H. simpl in H.
      apply sqrt_eq_0 in H;
        [|apply Rplus_le_le_0_compat; apply Rle_0_sqr].
      destruct (Rplus_sqr_eq_0 (px - qx) (py - qy) H) as [Hx Hy].
      f_equal; lra.
    + intros ->. apply distance_refl.
  - rewrite !distance_as_dist_euc. apply triangle.
Qed.

Section LoopRuns.

Lemma cue_trigger_no_overlap (bp : bool) (now last : R) :
  cue_trigger bp false now last = (false, last).
Proof. unfold cue_trigger. now rewrite andb_false_r. Qed.

Lemma cue_trigger_no_beep (overlap : bool) (now last : R) :
  cue_trigger false overlap now last = (false, last).
Proof. reflexivity. Qed.

(** Dots within [r] of the centre and the mouse at least [r + th] away:
    no dot is within [th] of the mouse. *)
Lemma overlap_any_far (dots : list point) (m : point) (r th : R) :
  Forall (fun p => distance p (0, 0) <= r) dots ->
  distance m (0, 0) >= r + th ->
  overlap_any dots m th = false.
Proof.
  intros Hin Hfar.
  destruct (overlap_any dots m th) eqn:E; [|reflexivity].
  apply overlap_any_true_iff in E. destruct E as (p & Hp & Hlt).
  rewrite Forall_forall in Hin. specialize (Hin p Hp).
  pose proof (triangle (fst m) (snd m) 0 0 (fst p) (snd p)) as Ht.
  rewrite (distance_symm (fst m) (snd m) (fst p) (snd p)) in Ht.
  change (distance m (0, 0) <= distance p m + distance p (0, 0)) in Ht.
  lra.
Qed.

Lemma main_loop_escape (su : Setup) (f : Frame) (fs2 : list Frame) (fs1 : list Frame) :
  escape f = true ->
  forall last, main_loop su last (fs1 ++ f :: fs2) = main_loop su last fs1.
Proof.
  intros He. induction fs1 as [|g gs IH]; intros last; simpl.
  - now rewrite He.
  - destruct (escape g); [reflexivity|].
    destruct (frame_step su last g) as [[out last']|e]; [|reflexivity].
    now rewrite IH.
Qed.

Lemma main_loop_length_le (su : Setup) (frames : list Frame) :
  forall last, (length (main_loop su last frames) <= length frames)%nat.
Proof.
  induction frames as [|f fs IH]; intros last; simpl; [lia|].
  destruct (escape f); [simpl; lia|].
  destruct (frame_step su last f) as [[out last']|e]; simpl; [|lia].
  specialize (IH last'). lia.
Qed.

(** On a returned setup, the loop completes every frame delivered without
    an escape key and records that frame's readings. *)
Lemma main_loop_records (c : Config) (audio : bool) (frames : list Frame) :
  Forall (fun f => escape f = false) frames ->
  forall last,
    let tr := main_loop (setup_value c audio) last frames in
    map fo_now tr = map clock_now frames
    /\ map fo_green tr = map mpos frames
    /\ Forall (fun o => len (fo_dots o) = Z.max 0 (num_white_dots c)) tr.
Proof.
  induction 1 as [|f fs Hf _ IH]; intros last; cbv zeta.
  - simpl. repeat split; constructor.
  - rewrite (main_loop_cons _ _ _ _ _ _ Hf
               (frame_step_ok _ last _ _ (move_dots_setup c audio (clock_t f)))).
    match goal with
    | |- context [main_loop _ ?l fs] => set (l' := l); specialize (IH l')
    end.
    cbv zeta in IH. destruct IH as (H1 & H2 & H3).
    rewrite !map_cons, H1, H2.
    split; [reflexivity|]. split; [reflexivity|].
    constructor; [|exact H3].
    unfold len, fo_dots. rewrite length_map, length_range. lia.
Qed.

Lemma cue_consistent_no_beep (tr : list FrameOut) :
  forall last, cue_consistent false last tr -> filter fo_cue tr = [].
Proof.
  induction tr as [|o tr' IH]; intros last; simpl; [reflexivity|].
  intros [Hc Hrest]. rewrite Hc. simpl. apply (IH last). exact Hrest.
Qed.

(** The span of the cues of a consistent record. *)
Lemma cue_consistent_span (bp : bool) (tr : list FrameOut) :
  forall last,
    cue_consistent bp last tr ->
    match cue_times tr with
    | [] => True
    | x :: rest => List.last rest x - x >= INR (length rest) * beep_interval
    end.
Proof.
  induction tr as [|o tr' IH]; intros last Hc; [exact I|].
  simpl in Hc. destruct Hc as [Hc Hrest].
  rewrite cue_trigger_last, <- Hc in Hrest.
  unfold cue_times in *. simpl.
  destruct (fo_cue o) eqn:E; [|exact (IH _ Hrest)].
  simpl. specialize (IH _ Hrest).
  destruct (cue_consistent_spacing bp tr' _ Hrest) as [Hall _].
  unfold cue_times in Hall.
  destruct (map fo_now (filter fo_cue tr')) as [|y rest'] eqn:Er.
  - simpl. lra.
  - apply Forall_inv in Hall.
    change (List.last (y :: rest') (fo_now o)) with
      (match rest' with [] => y | _ :: _ => List.last rest' (fo_now o) end).
    assert (El : forall dflt, match rest' with
                              | [] => y
                              | _ :: _ => List.last rest' dflt
                              end = List.last rest' y).
    { intros dflt. destruct rest' as [|z zs]; [reflexivity|].
      clear. revert z. induction zs as [|w ws IHw]; intros z; [reflexivity|].
      change (List.last (z :: w :: ws) dflt) with (List.last (w :: ws) dflt).
      change (List.last (z :: w :: ws) y) with (List.last (w :: ws) y).
      apply IHw. }
    rewrite El. change (length (y :: rest')) with (S (length rest')).
    rewrite S_INR. lra.
Qed.

(** From the initial state, frames without overlap leave [last_beep_time]
    untouched, and the first frame with overlap issues a cue. *)
Lemma cue_consistent_first_overlap (tr : list FrameOut) :
  cue_consistent true never tr ->
  forall i,
    (i < length tr)%nat ->
    (forall j, (j < i)%nat -> fo_overlap (nth j tr no_frame) = false) ->
    fo_overlap (nth i tr no_frame) = true ->
    0 <= fo_now (nth i tr no_frame) ->
    fo_cue (nth i tr no_frame) = true
    /\ forall j, (j < i)%nat -> fo_cue (nth j tr no_frame) = false.
Proof.
  induction tr as [|o tr' IH]; intros Hc i Hi Hbefore Hov Hnow;
    simpl in Hi; [lia|].
  simpl in Hc. destruct Hc as [Hc Hrest].
  destruct i as [|i'].
  - simpl in *. split; [|intros j Hj; lia].
    rewrite Hc. apply cue_trigger_fires. rewrite Hov.
    unfold never, beep_interval. repeat split. lra.
  - assert (H0 : fo_overlap o = false) by (apply (Hbefore 0%nat); lia).
    rewrite H0, cue_trigger_no_overlap in Hc, Hrest. simpl in Hc, Hrest.
    destruct (IH Hrest i') as [Hcue Hnone]; try (simpl in *; assumption || lia).
    + intros j Hj. apply (Hbefore (S j)). lia.
    + split; [exact Hcue|].
      intros [|j] Hj; simpl; [exact Hc | apply Hnone; lia].
Qed.

End LoopRuns.

Section FarMouse.

Lemma setup_dots_within (c : Config) (t : R) :
  Rabs (ellipse_b_scale c) <= 1 ->
  Forall (fun p => distance p (0, 0) <= Rabs (ring_radius c))
    (map (fun j => dot_position t (speed_uniform c)
                     (offset_at c (num_white_dots c) j) (angle_at c (j + 1))
                     (ring_radius c) (ring_radius c * ellipse_b_scale c))
       (range (num_white_dots c))).
Proof.
  intros Hb. apply Forall_forall. intros p Hp.
  apply in_map_iff in Hp. destruct Hp as (j & <- & _).
  apply ellipse_position_bounds.
  rewrite Rabs_mult. pose proof (Rabs_pos (ring_radius c)). nra.
Qed.

Lemma distance_far_point : distance (1000, 0) (0, 0) = 1000.
Proof.
  rewrite distance_origin. simpl.
  replace (1000 * 1000 + 0 * 0) with (Rsqr 1000) by (unfold Rsqr; lra).
  apply sqrt_Rsqr. lra.
Qed.

Lemma script_b_scale : Rabs (ellipse_b_scale script_config) <= 1.
Proof. simpl. unfold Rabs. destruct (Rcase_abs (35 / 100)); lra. Qed.

Lemma far_frame_step (t last : R) :
  exists dots,
    frame_step (setup_value script_config true) last (far_frame t)
    = Ok ({| fo_dots := dots; fo_green := (1000, 0); fo_overlap := false;
             fo_now := t; fo_cue := false |}, last).
Proof.
  pose proof (move_dots_setup script_config true (clock_t (far_frame t))) as Hm.
  pose proof (frame_step_ok _ last _ _ Hm) as Hs.
  match type of Hs with
  | context [overlap_any ?ds ?g ?th] =>
      assert (Hov : overlap_any ds g th = false)
  end.
  { apply (overlap_any_far _ _ (Rabs (ring_radius script_config))).
    - apply setup_dots_within, script_b_scale.
    - change (mpos (far_frame t)) with ((1000, 0) : point).
      rewrite distance_far_point. simpl.
      unfold Rabs. destruct (Rcase_abs 250); lra. }
  rewrite Hov, cue_trigger_no_overlap in Hs. eexists. exact Hs.
Qed.

(** A run whose first frame has the mouse far away and whose later frames
    have it on the first white dot. *)
Lemma far_then_riding_trace (d : R) (n : nat) :
  exists o,
    main_loop (setup_value script_config true) never
      (far_frame 0 :: map (riding_frame d) (seq 1 n))
    = o :: main_loop (setup_value script_config true) never
             (map (riding_frame d) (seq 1 n))
    /\ fo_overlap o = false.
Proof.
  destruct (far_frame_step 0 never) as [dots Hs].
  eexists. split.
  - apply main_loop_cons; [reflexivity | exact Hs].
  - reflexivity.
Qed.

End FarMouse.

(** X10.  Mouse away from the ring: with [|ellipse_b_scale| <= 1], a frame
    whose mouse position is at least [|ring_radius| + overlap_thresh] from
    the centre has no overlap, issues no cue and leaves [last_beep_time]
    unchanged. *)
Theorem no_overlap_far_from_ring
        (c : Config) (audio : bool) (su : Setup) (last : R) (f : Frame)
        (out : FrameOut) (last' : R) :
  Rabs (ellipse_b_scale c) <= 1 ->
  setup c audio = Ok su ->
  frame_step su last f = Ok (out, last') ->
  distance (mpos f) (0, 0) >= Rabs (ring_radius c) + overlap_thresh c ->
  fo_overlap out = false /\ fo_cue out = false /\ last' = last.
Proof.
  intros Hb Hsu Hs Hfar. apply setup_returns_inv in Hsu. destruct Hsu as [_ ->].
  pose proof (move_dots_setup c audio (clock_t f)) as Hm.
  rewrite (frame_step_ok _ last _ _ Hm) in Hs.
  rewrite (overlap_any_far _ _ (Rabs (ring_radius c))) in Hs;
    [|apply setup_dots_within; exact Hb | exact Hfar].
  rewrite cue_trigger_no_overlap in Hs.
  injection Hs as <- <-. auto.
Qed.

Lemma no_overlap_far_from_ring_witness :
  exists out last',
    frame_step (setup_value script_config true) 5 (far_frame 6) = Ok (out, last')
    /\ fo_overlap out = false /\ fo_cue out = false /\ last' = 5.
Proof.
  destruct (far_frame_step 6 5) as [dots Hs].
  eexists _, _. split; [exact Hs|].
  apply (no_overlap_far_from_ring script_config true
           (setup_value script_config true) 5 (far_frame 6)).
  - apply script_b_scale.
  - apply setup_ok. simpl. lia.
  - exact Hs.
  - change (mpos (far_frame 6)) with ((1000, 0) : point).
    rewrite distance_far_point. simpl.
    unfold Rabs. destruct (Rcase_abs 250); lra.
Defined.

(** X11.  Escape ends the loop: the frames delivered after a frame on which
    the escape key is read have no effect, and that frame itself is not
    completed (no dot is moved and no cue issued on it). *)
Theorem escape_ends_loop
        (su : Setup) (last : R) (fs1 : list Frame) (f : Frame) (fs2 : list Frame) :
  escape f = true ->
  main_loop su last (fs1 ++ f :: fs2) = main_loop su last fs1
  /\ (length (main_loop su last (fs1 ++ f :: fs2)) <= length fs1)%nat.
Proof.
  intros He. rewrite main_loop_escape by exact He.
  split; [reflexivity | apply main_loop_length_le].
Qed.

Lemma escape_ends_loop_witness :
  main_loop (setup_value script_config true) never
    (riding_frames (1 / 100) 3 ++ escape_frame 1 :: riding_frames (1 / 100) 30)
  = main_loop (setup_value script_config true) never (riding_frames (1 / 100) 3)
  /\ (length (main_loop (setup_value script_config true) never
                (riding_frames (1 / 100) 3 ++ escape_frame 1
                   :: riding_frames (1 / 100) 30))
      <= length (riding_frames (1 / 100) 3))%nat.
Proof.
  apply (escape_ends_loop (setup_value script_config true) never
           (riding_frames (1 / 100) 3) (escape_frame 1)
           (riding_frames (1 / 100) 30)).
  reflexivity.
Defined.

(** X12.  Silent operation: when the beep could not be created the loop
    still completes every frame delivered without an escape key, and no cue
    is ever issued. *)
Theorem silent_without_audio
        (c : Config) (su : Setup) (last : R) (frames : list Frame) :
  setup c false = Ok su ->
  Forall (fun f => escape f = false) frames ->
  length (main_loop su last frames) = length frames
  /\ Forall (fun o => fo_cue o = false) (main_loop su last frames)
  /\ cue_times (main_loop su last frames) = [].
Proof.
  intros Hsu Hesc. apply setup_returns_inv in Hsu. destruct Hsu as [_ ->].
  pose proof (main_loop_cue_consistent (setup_value c false) frames last) as Hc.
  change (beep (setup_value c false)) with false in Hc.
  pose proof (cue_consistent_no_beep _ _ Hc) as Hnil.
  split; [now apply main_loop_runs_every_frame|].
  split.
  - apply Forall_forall. intros o Ho.
    destruct (fo_cue o) eqn:E; [|reflexivity].
    assert (Hin : In o (filter fo_cue (main_loop (setup_value c false) last frames)))
      by (apply filter_In; auto).
    rewrite Hnil in Hin. destruct Hin.
  - unfold cue_times. now rewrite Hnil.
Qed.

Lemma silent_without_audio_witness :
  length (main_loop (setup_value script_config false) never
            (riding_frames (11 / 100) 4))
  = length (riding_frames (11 / 100) 4)
  /\ Forall (fun o => fo_cue o = false)
       (main_loop (setup_value script_config false) never
          (riding_frames (11 / 100) 4))
  /\ cue_times (main_loop (setup_value script_config false) never
                  (riding_frames (11 / 100) 4)) = [].
Proof.
  apply (silent_without_audio script_config).
  - apply setup_ok. simpl. lia.
  - repeat constructor.
Defined.

(** X13.  The loop never raises on a returned setup: every frame delivered
    without an escape key is completed, in order, recording that frame's
    second clock reading and mouse position and one position per white
    dot. *)
Theorem loop_completes_every_frame
        (c : Config) (audio : bool) (su : Setup) (last : R) (frames : list Frame) :
  setup c audio = Ok su ->
  Forall (fun f => escape f = false) frames ->
  map fo_now (main_loop su last frames) = map clock_now frames
  /\ map fo_green (main_loop su last frames) = map mpos frames
  /\ Forall (fun o => len (fo_dots o) = (num_pairs c - 1)%Z)
       (main_loop su last frames).
Proof.
  intros Hsu Hesc. apply setup_returns_inv in Hsu. destruct Hsu as [HN ->].
  pose proof (num_white_dots_pos c HN) as HM.
  destruct (main_loop_records c audio frames Hesc last) as (H1 & H2 & H3).
  split; [exact H1|]. split; [exact H2|].
  eapply Forall_impl; [|exact H3]. simpl. intros o Ho.
  rewrite Ho. unfold num_white_dots in *. lia.
Qed.

Lemma loop_completes_every_frame_witness :
  map fo_now (main_loop (setup_value script_config true) never
                [far_frame 0; far_frame 1; far_frame 2])
  = [0; 1; 2]
  /\ map fo_green (main_loop (setup_value script_config true) never
                     [far_frame 0; far_frame 1; far_frame 2])
     = [(1000, 0); (1000, 0); (1000, 0)]
  /\ Forall (fun o => len (fo_dots o) = (num_pairs script_config - 1)%Z)
       (main_loop (setup_value script_config true) never
          [far_frame 0; far_frame 1; far_frame 2]).
Proof.
  apply (loop_completes_every_frame script_config true
           (setup_value script_config true) never
           [far_frame 0; far_frame 1; far_frame 2]).
  - apply setup_ok. simpl. lia.
  - repeat constructor.
Defined.

(** X14.  Cue rate: in every run of the loop, if [n + 1] cues are issued the
    last one comes at least [n * 0.22] seconds after the first. *)
Theorem cue_rate_bound (su : Setup) (last : R) (frames : list Frame) :
  match cue_times (main_loop su last frames) with
  | [] => True
  | x :: rest => List.last rest x - x >= INR (length rest) * beep_interval
  end.
Proof.
  apply (cue_consistent_span (beep su) _ last).
  apply main_loop_cue_consistent.
Qed.

(** X15.  First overlap: in a run from the initial state with the beep
    available, no cue is issued while overlap is false, and the first frame
    with overlap issues a cue at once, whatever its (non-negative) clock
    reading. *)
Theorem first_overlap_fires (su : Setup) (frames : list Frame) (i : nat) :
  beep su = true ->
  (i < length (main_loop su never frames))%nat ->
  (forall j, (j < i)%nat ->
             fo_overlap (nth j (main_loop su never frames) no_frame) = false) ->
  fo_overlap (nth i (main_loop su never frames) no_frame) = true ->
  0 <= fo_now (nth i (main_loop su never frames) no_frame) ->
  fo_cue (nth i (main_loop su never frames) no_frame) = true
  /\ forall j, (j < i)%nat ->
               fo_cue (nth j (main_loop su never frames) no_frame) = false.
Proof.
  intros Hb Hi Hbefore Hov Hnow.
  pose proof (main_loop_cue_consistent su frames never) as Hc.
  rewrite Hb in Hc.
  now apply cue_consistent_first_overlap.
Qed.

Lemma first_overlap_fires_witness :
  fo_cue (nth 1 (main_loop (setup_value script_config true) never
                   (far_frame 0 :: map (riding_frame (1 / 100)) (seq 1 3)))
            no_frame) = true
  /\ forall j, (j < 1)%nat ->
       fo_cue (nth j (main_loop (setup_value script_config true) never
                        (far_frame 0 :: map (riding_frame (1 / 100)) (seq 1 3)))
                 no_frame) = false.
Proof.
  destruct (far_then_riding_trace (1 / 100) 3) as (o & Htr & Hov).
  destruct (riding_trace (1 / 100) 3 1 never) as [Hlen Hnth].
  apply (first_overlap_fires (setup_value script_config true)
           (far_frame 0 :: map (riding_frame (1 / 100)) (seq 1 3)) 1).
  - reflexivity.
  - rewrite Htr. cbn [length]. rewrite Hlen. lia.
  - intros j Hj. assert (j = 0%nat) as -> by lia. rewrite Htr. exact Hov.
  - rewrite Htr. apply (Hnth 0%nat). lia.
  - rewrite Htr.
    change (0 <= fo_now (nth 0 (main_loop (setup_value script_config true) never
                                  (map (riding_frame (1 / 100)) (seq 1 3)))
                           no_frame)).
    rewrite (proj2 (Hnth 0%nat ltac:(lia))). simpl. lra.
Defined.

(** X16.  A non-positive overlap threshold switches detection off: no
    completed frame has overlap and no cue is ever issued, wherever the
    mouse is. *)
Theorem nonpositive_threshold_never_overlaps
        (su : Setup) (last : R) (frames : list Frame) :
  thresh su <= 0 ->
  Forall (fun o => fo_overlap o = false /\ fo_cue o = false)
    (main_loop su last frames).
Proof.
  intros Hth. apply Forall_forall. intros o Ho.
  assert (Hov : fo_overlap o = false).
  { destruct (main_loop_frames _ _ _ _ Ho) as (f & l & l' & _ & Hs).
    apply frame_step_dots in Hs. destruct Hs as (_ & _ & ->).
    destruct (overlap_any _ _ _) eqn:E; [|reflexivity].
    apply overlap_any_true_iff in E. destruct E as (p & _ & Hlt).
    pose proof (sqrt_pos ((fst p - fst (fo_green o)) * (fst p - fst (fo_green o))
                          + (snd p - snd (fo_green o)) * (snd p - snd (fo_green o)))).
    unfold distance, hypot in Hlt. lra. }
  split; [exact Hov|].
  destruct (fo_cue o) eqn:E; [|reflexivity].
  pose proof (main_loop_cue_consistent su frames last) as Hc.
  rewrite (cue_consistent_overlap _ _ _ Hc o Ho E) in Hov. discriminate.
Qed.

Lemma nonpositive_threshold_never_overlaps_witness :
  Forall (fun o => fo_overlap o = false /\ fo_cue o = false)
    (main_loop (setup_value (mkConfig 20 1 250 16 8 10 (35 / 100) (15 / 100) 0) true)
       never (riding_frames (1 / 100) 5)).
Proof.
  apply (nonpositive_threshold_never_overlaps
           (setup_value (mkConfig 20 1 250 16 8 10 (35 / 100) (15 / 100) 0) true)
           never (riding_frames (1 / 100) 5)).
  simpl. lra.
Defined.
